(** * Pixel-precise collision detection (src/PixelBits.cpp)

    A shallow embedding of the [PixelBits] class: the constructor that packs
    an 8-bit surface into rows of 32-bit masks, the rectangle test and the
    bit-level collision test, followed by the properties established about
    them.

    Conventions of the embedding.
    - C++ [int] values, and the fields of an [SDL_Rect], are integers of [Z];
      [/] and [%] on [int] are [Z.quot] and [Z.rem] (truncation towards zero).
      The fields of an [SDL_Rect] are 16 bits wide ([x], [y] signed, [w], [h]
      unsigned), so no sum or difference that the program forms from them
      leaves the range of [int], and a width or height copied from an
      [SDL_Rect] into the class and back is unchanged.
    - A [Uint32] mask is an integer of [Z] in [0, 2^32); the only operations
      the program applies to masks are [>>], [&] and [|], none of which can
      leave that range.  A right shift whose count is not in [0, 32) has no
      defined result in C++ and is reported as [UndefinedShift].
    - An array is a list; an access outside of it is reported as
      [OutOfBounds] instead of being given an arbitrary meaning. *)

From Stdlib Require Import ZArith Lia Bool String.
From stdpp Require Import base list.

Local Open Scope Z_scope.

(** ** Outcomes of a computation *)

Inductive fault : Type :=
| UnsupportedFormatError (message : string)
| OutOfBounds
| UndefinedShift.

Inductive outcome (A : Type) : Type :=
| Done (a : A)
| Abort (f : fault).

Arguments Done {A} a.
Arguments Abort {A} f.

Definition bind {A B : Type} (m : outcome A) (k : A -> outcome B) : outcome B :=
  match m with
  | Done a => k a
  | Abort f => Abort f
  end.

Notation "x <- m ; k" := (bind m (fun x => k))
  (at level 100, m at next level, right associativity, only parsing).

(** ** Arrays, pointers into arrays, counted loops *)

(** [a[i]] as an rvalue. *)
Definition read {A : Type} (a : list A) (i : Z) : outcome A :=
  if i <? 0 then Abort OutOfBounds
  else match a !! Z.to_nat i with
       | Some v => Done v
       | None => Abort OutOfBounds
       end.

(** [a[i] = v]. *)
Definition write {A : Type} (a : list A) (i : Z) (v : A) : outcome (list A) :=
  if (0 <=? i) && (i <? Z.of_nat (length a)) then Done (<[Z.to_nat i := v]> a)
  else Abort OutOfBounds.

(** [&a[offset]]: a pointer to element [offset] of the array [a]. *)
Record pointer (A : Type) : Type := address_of { base : list A; offset : Z }.

Arguments address_of {A} base offset.
Arguments base {A} p.
Arguments offset {A} p.

(** [p[i]] for a pointer [p]. *)
Definition deref {A : Type} (p : pointer A) (i : Z) : outcome A :=
  read (base p) (offset p + i).

(** [v >> n] on a [Uint32]. *)
Definition shr (v n : Z) : outcome Z :=
  if (0 <=? n) && (n <? 32) then Done (Z.shiftr v n) else Abort UndefinedShift.

(** [for (int i = first; i < first + n; i++) body], threading the state [s]. *)
Fixpoint for_loop {T : Type} (n : nat) (i : Z) (body : Z -> T -> outcome T) (s : T)
  : outcome T :=
  match n with
  | O => Done s
  | S n' => s' <- body i s; for_loop n' (i + 1) body s'
  end.

(** [for (int i = first; i < first + n && !collision; i++) collision = body]. *)
Fixpoint for_until (n : nat) (i : Z) (body : Z -> outcome bool) (collision : bool)
  : outcome bool :=
  match n with
  | O => Done collision
  | S n' =>
      if collision then Done collision
      else c <- body i; for_until n' (i + 1) body c
  end.

(** ** The SDL types the class receives *)

Record SDL_PixelFormat : Type := { BitsPerPixel : Z; colorkey : Z }.

Record SDL_Surface : Type :=
  { format : SDL_PixelFormat;
    surface_w : Z;          (* [surface->w] *)
    pixels : list Z }.      (* [surface->pixels], one [Uint8] per pixel *)

Record SDL_Rect : Type := { x : Z; y : Z; w : Z; h : Z }.

(** The conversion [(Uint8) v]. *)
Definition to_Uint8 (v : Z) : Z := v mod 256.

(** [MAX] and [MIN] are the usual macros, declared outside of this file. *)
Definition MAX (a b : Z) : Z := if a >? b then a else b.
Definition MIN (a b : Z) : Z := if a <? b then a else b.

(** Modelled from the spec: the [DIE] macro is declared outside of this file;
    construction given a surface that is not 8 bits per pixel fails with an
    unsupported-format error and goes no further. *)
Definition DIE {A : Type} (message : string) : outcome A :=
  Abort (UnsupportedFormatError message).

(** ** The class *)

Record PixelBits : Type :=
  { width : Z;
    height : Z;
    nb_integers_per_row : Z;
    bits : list (list Z) }.

(** *** Constructor *)

(** The variables of the loop that fills one row. *)
Record row_cursor : Type :=
  { k : Z; mask : Z; row : list Z; pixel_index : Z }.

Section Constructor.

(** [new Uint32[n]] does not initialise the words it returns:
    [uninitialized i k] is what word [k] of the row allocated for [i]
    happens to hold. *)
Variable uninitialized : Z -> Z -> Z.

Definition new_row (i n : Z) : list Z :=
  map (uninitialized i) (seqZ 0 n).

(** [if (mask == 0x00000000) { k++; mask = 0x80000000; bits[i][k] = 0; }] *)
Definition start_mask (c : row_cursor) : outcome row_cursor :=
  if mask c =? 0 then
    let k' := k c + 1 in
    row' <- write (row c) k' 0;
    Done {| k := k'; mask := 2147483648 (* 0x80000000 *); row := row';
            pixel_index := pixel_index c |}
  else Done c.

(** Body of [for (int j = 0; j < width; j++)]. *)
Definition fill_pixel (pixels : list Z) (colorkey : Z) (j : Z) (c : row_cursor)
  : outcome row_cursor :=
  c <- start_mask c;
  p <- read pixels (pixel_index c);
  row' <- (if negb (p =? colorkey) then
             word <- read (row c) (k c);
             write (row c) (k c) (Z.lor word (mask c))
           else Done (row c));
  Done {| k := k c; mask := Z.shiftr (mask c) 1; row := row';
          pixel_index := pixel_index c + 1 |}.

(** Body of [for (int i = 0; i < height; i++)]; the state is the array of
    rows and [pixel_index].  The row [bits[i]] is filled through the cursor
    and takes its place in the array of rows once filled. *)
Definition fill_row (surface : SDL_Surface) (colorkey width nb_integers_per_row : Z)
    (i : Z) (s : list (list Z) * Z) : outcome (list (list Z) * Z) :=
  let '(bits, first_pixel) := s in
  c <- for_loop (Z.to_nat width) 0 (fill_pixel (pixels surface) colorkey)
         {| k := -1; mask := 0; row := new_row i nb_integers_per_row;
            pixel_index := first_pixel |};
  bits' <- write bits i (row c);
  Done (bits', pixel_index c + (surface_w surface - width)).

Definition PixelBits_new (surface : SDL_Surface) (image_position : SDL_Rect)
  : outcome PixelBits :=
  let format := format surface in
  _ <- (if negb (BitsPerPixel format =? 8)
        then DIE "This surface should have an 8-bit pixel format"
        else Done tt);
  let colorkey := to_Uint8 (colorkey format) in
  let width := w image_position in
  let height := h image_position in
  let nb_integers_per_row := Z.quot width 32 in
  let nb_integers_per_row :=
    if negb (Z.rem width 32 =? 0) then nb_integers_per_row + 1
    else nb_integers_per_row in
  let pixel_index := y image_position * surface_w surface + x image_position in
  (* [new Uint32*[height]]: no row is allocated yet *)
  let bits := replicate (Z.to_nat height) [] in
  s <- for_loop (Z.to_nat height) 0
         (fill_row surface colorkey width nb_integers_per_row) (bits, pixel_index);
  Done {| width := width; height := height;
          nb_integers_per_row := nb_integers_per_row; bits := fst s |}.

End Constructor.

(** *** Rectangle test *)

Definition check_rectangle_collision (rectangle1 rectangle2 : SDL_Rect) : bool :=
  let x1 := x rectangle1 in
  let x2 := x1 + w rectangle1 in
  let x3 := x rectangle2 in
  let x4 := x3 + w rectangle2 in
  let overlap_x := (x3 <? x2) && (x1 <? x4) in
  let y1 := y rectangle1 in
  let y2 := y1 + h rectangle1 in
  let y3 := y rectangle2 in
  let y4 := y3 + h rectangle2 in
  let overlap_y := (y3 <? y2) && (y1 <? y4) in
  overlap_x && overlap_y.

(** *** Collision test *)

(** The local variables of [check_collision] once the roles of row a and
    row b are assigned, that is on entry of the loop over the rows. *)
Record locals : Type :=
  { intersection : SDL_Rect;
    rows_a : pointer (list Z);
    rows_b : pointer (list Z);
    nb_masks_per_row_a : Z;
    has_row_b_additional_mask : bool;
    nb_unused_masks_row_b : Z;
    nb_unused_bits_row_b : Z;
    nb_used_bits_row_b : Z }.

Definition bounding_box (this : PixelBits) (location : SDL_Rect) : SDL_Rect :=
  {| x := x location; y := y location; w := width this; h := height this |}.

(** From the computation of the intersection to [nb_used_bits_row_b]. *)
Definition assign_rows (this other : PixelBits) (bounding_box1 bounding_box2 : SDL_Rect)
  : locals :=
  let intersection_x := MAX (x bounding_box1) (x bounding_box2) in
  let intersection_y := MAX (y bounding_box1) (y bounding_box2) in
  let intersection :=
    {| x := intersection_x;
       y := intersection_y;
       w := MIN (x bounding_box1 + w bounding_box1) (x bounding_box2 + w bounding_box2)
            - intersection_x;
       h := MIN (y bounding_box1 + h bounding_box1) (y bounding_box2 + h bounding_box2)
            - intersection_y |} in
  let offset_x1 := x intersection - x bounding_box1 in
  let offset_y1 := y intersection - y bounding_box1 in
  let offset_x2 := x intersection - x bounding_box2 in
  let offset_y2 := y intersection - y bounding_box2 in
  let nb_masks_per_row_a := Z.quot (w intersection) 32 in
  let nb_masks_per_row_a :=
    if negb (Z.rem (w intersection) 32 =? 0) then nb_masks_per_row_a + 1
    else nb_masks_per_row_a in
  if x bounding_box1 >? x bounding_box2 then
    let nb_unused_masks_row_b := Z.quot offset_x2 32 in
    let nb_unused_bits_row_b := Z.rem offset_x2 32 in
    {| intersection := intersection;
       rows_a := address_of (bits this) offset_y1;
       rows_b := address_of (bits other) offset_y2;
       nb_masks_per_row_a := nb_masks_per_row_a;
       has_row_b_additional_mask :=
         nb_masks_per_row_a + nb_unused_masks_row_b + 1 <? nb_integers_per_row other;
       nb_unused_masks_row_b := nb_unused_masks_row_b;
       nb_unused_bits_row_b := nb_unused_bits_row_b;
       nb_used_bits_row_b := 32 - nb_unused_bits_row_b |}
  else
    let nb_unused_masks_row_b := Z.quot offset_x1 32 in
    let nb_unused_bits_row_b := Z.rem offset_x1 32 in
    {| intersection := intersection;
       rows_a := address_of (bits other) offset_y2;
       rows_b := address_of (bits this) offset_y1;
       nb_masks_per_row_a := nb_masks_per_row_a;
       has_row_b_additional_mask :=
         nb_masks_per_row_a + nb_unused_masks_row_b + 1 <? nb_integers_per_row this;
       nb_unused_masks_row_b := nb_unused_masks_row_b;
       nb_unused_bits_row_b := nb_unused_bits_row_b;
       nb_used_bits_row_b := 32 - nb_unused_bits_row_b |}.

(** Body of [for (int j = 0; j < nb_masks_per_row_a && !collision; j++)]. *)
Definition compare_masks (l : locals) (bits_a bits_b : list Z) (j : Z) : outcome bool :=
  mask_a <- read bits_a j;
  mask_b <- read bits_b (j + nb_unused_masks_row_b l);
  next_mask_b_left <-
    (if has_row_b_additional_mask l then
       next <- read bits_b (j + nb_unused_masks_row_b l + 1);
       shr next (nb_used_bits_row_b l)
     else Done 0);
  mask_a_left <- shr mask_a (nb_unused_bits_row_b l);
  Done (negb (Z.lor (Z.land mask_a_left mask_b) (Z.land mask_a next_mask_b_left) =? 0)).

(** Body of [for (int i = 0; i < intersection.h && !collision; i++)]. *)
Definition compare_rows (l : locals) (i : Z) : outcome bool :=
  bits_a <- deref (rows_a l) i;
  bits_b <- deref (rows_b l) i;
  for_until (Z.to_nat (nb_masks_per_row_a l)) 0 (compare_masks l bits_a bits_b) false.

Definition check_collision (this other : PixelBits) (location1 location2 : SDL_Rect)
  : outcome bool :=
  let bounding_box1 := bounding_box this location1 in
  let bounding_box2 := bounding_box other location2 in
  if negb (check_rectangle_collision bounding_box1 bounding_box2) then Done false
  else
    let l := assign_rows this other bounding_box1 bounding_box2 in
    for_until (Z.to_nat (h (intersection l))) 0 (compare_rows l) false.

(** ** What the bitmaps mean *)

(** Bit [col] of row [row] of a bitmap: word [col / 32] of the row, read from
    its most significant bit (bit 31 is the leftmost pixel of the word). *)
Definition bit_at (p : PixelBits) (row col : Z) : outcome bool :=
  r <- read (bits p) row;
  word <- read r (Z.quot col 32);
  Done (Z.testbit word (31 - Z.rem col 32)).

(** The pixel of the surface at column [col] and row [row] of the image. *)
Definition source_pixel (surface : SDL_Surface) (image_position : SDL_Rect)
    (row col : Z) : outcome Z :=
  read (pixels surface)
       ((y image_position + row) * surface_w surface + x image_position + col).

(** The image lies within the pixels of the surface. *)
Definition image_in_surface (surface : SDL_Surface) (image_position : SDL_Rect) : Prop :=
  forall row col,
    0 <= row < h image_position -> 0 <= col < w image_position ->
    0 <= (y image_position + row) * surface_w surface + x image_position + col
      < Z.of_nat (length (pixels surface)).

(** * Properties *)

(** ** The outcome monad, arrays and loops *)

Lemma bind_Done {A B : Type} (m : outcome A) (f : A -> outcome B) (b : B) :
  bind m f = Done b -> exists a, m = Done a /\ f a = Done b.
Proof. destruct m as [a|e]; simpl; intros H; [eauto | discriminate]. Qed.

Lemma read_Done {A : Type} (a : list A) (i : Z) (v : A) :
  read a i = Done v <-> 0 <= i /\ a !! Z.to_nat i = Some v.
Proof.
  unfold read. destruct (Z.ltb_spec i 0).
  - split; [discriminate | lia].
  - destruct (a !! Z.to_nat i) as [v'|]; split.
    + intros [= ->]. auto.
    + intros [_ [= ->]]. reflexivity.
    + discriminate.
    + intros [_ ?]. discriminate.
Qed.

Lemma read_in_bounds {A : Type} (a : list A) (i : Z) :
  0 <= i < Z.of_nat (length a) -> exists v, read a i = Done v.
Proof.
  intros Hi. destruct (lookup_lt_is_Some_2 a (Z.to_nat i)) as [v Hv]; [lia|].
  exists v. apply read_Done. split; [lia | exact Hv].
Qed.

Lemma read_Done_bounds {A : Type} (a : list A) (i : Z) (v : A) :
  read a i = Done v -> 0 <= i < Z.of_nat (length a).
Proof.
  intros [Hi Hv]%read_Done. apply lookup_lt_Some in Hv. lia.
Qed.

Lemma write_Done {A : Type} (a a' : list A) (i : Z) (v : A) :
  write a i v = Done a' <->
  0 <= i < Z.of_nat (length a) /\ a' = <[Z.to_nat i := v]> a.
Proof.
  unfold write.
  destruct (Z.leb_spec 0 i); destruct (Z.ltb_spec i (Z.of_nat (length a))); simpl;
    split; try discriminate; try (intros [? _]; lia).
  - intros [= <-]. split; [lia | reflexivity].
  - intros [_ ->]. reflexivity.
Qed.

(** Preservation of an invariant by a counted loop that completes. *)
Lemma for_loop_preserves {T : Type} (I : Z -> T -> Prop) (body : Z -> T -> outcome T) :
  forall (n : nat) (i : Z) (s s' : T),
    (forall j t t', i <= j < i + Z.of_nat n -> I j t -> body j t = Done t' -> I (j + 1) t') ->
    I i s -> for_loop n i body s = Done s' -> I (i + Z.of_nat n) s'.
Proof.
  induction n as [|n IH]; intros i s s' Hstep Hi Hrun; simpl in Hrun.
  - injection Hrun as <-. replace (i + Z.of_nat 0) with i by lia. exact Hi.
  - apply bind_Done in Hrun as (t & Hbody & Hrest).
    replace (i + Z.of_nat (S n)) with (i + 1 + Z.of_nat n) by lia.
    apply (IH (i + 1) t s'); [ | | exact Hrest].
    + intros j u u' Hj. apply Hstep. lia.
    + apply (Hstep i s t); [lia | exact Hi | exact Hbody].
Qed.

(** A counted loop completes when each iteration does, under an invariant. *)
Lemma for_loop_completes {T : Type} (I : Z -> T -> Prop) (body : Z -> T -> outcome T) :
  forall (n : nat) (i : Z) (s : T),
    (forall j t, i <= j < i + Z.of_nat n -> I j t ->
                 exists t', body j t = Done t' /\ I (j + 1) t') ->
    I i s -> exists s', for_loop n i body s = Done s'.
Proof.
  induction n as [|n IH]; intros i s Hstep Hi; simpl.
  - eauto.
  - destruct (Hstep i s) as (t & Hbody & Ht); [lia | exact Hi |].
    rewrite Hbody. simpl. apply IH; [ | exact Ht].
    intros j u Hj. apply Hstep. lia.
Qed.

(** ** Filling one row of masks *)

Lemma shiftr_pow2_1 (e : Z) :
  0 <= e -> Z.shiftr (2 ^ e) 1 = if e =? 0 then 0 else 2 ^ (e - 1).
Proof.
  intros He. rewrite Z.shiftr_div_pow2 by lia. change (2 ^ 1) with 2.
  destruct (Z.eqb_spec e 0) as [->|Hne].
  - reflexivity.
  - replace e with (Z.succ (e - 1)) at 1 by lia.
    rewrite Z.pow_succ_r by lia. rewrite Z.mul_comm. apply Z.div_mul. lia.
Qed.

Section RowFill.

Variables (pixels : list Z) (colorkey first : Z) (len : nat).

(** The pixel at [index] is not the transparent colour. *)
Definition source_opaque (index : Z) : bool :=
  match read pixels index with
  | Done p => negb (p =? colorkey)
  | Abort _ => false
  end.

(** Bit [b] of mask [q] once the [j] first pixels of the row are packed. *)
Definition mask_bit (j q b : Z) : bool :=
  (0 <=? b) && (b <? 32) && (32 * q + 31 - b <? j)
  && source_opaque (first + (32 * q + 31 - b)).

Definition words_filled (j : Z) (c : row_cursor) : Prop :=
  length (row c) = len /\ pixel_index c = first + j /\
  (forall j', 0 <= j' < j -> exists p, read pixels (first + j') = Done p) /\
  forall q, 0 <= q <= k c ->
    exists word, row c !! Z.to_nat q = Some word /\
                 forall b, Z.testbit word b = mask_bit j q b.

(** Invariant at the head of the loop over [j]. *)
Definition row_inv (j : Z) (c : row_cursor) : Prop :=
  32 * k c < j <= 32 * (k c + 1) /\
  mask c = (if j =? 32 * (k c + 1) then 0 else 2 ^ (32 * (k c + 1) - j - 1)) /\
  words_filled j c.

(** What holds once the mask of pixel [j] is selected. *)
Definition row_ready (j : Z) (c : row_cursor) : Prop :=
  32 * k c <= j < 32 * (k c + 1) /\
  mask c = 2 ^ (32 * (k c + 1) - j - 1) /\
  words_filled j c.

Lemma row_inv_mask_zero j c :
  row_inv j c -> (mask c = 0 <-> j = 32 * (k c + 1)).
Proof.
  intros (Hk & Hm & _). destruct (Z.eqb_spec j (32 * (k c + 1))) as [E|E].
  - tauto.
  - assert (0 < 2 ^ (32 * (k c + 1) - j - 1)) by (apply Z.pow_pos_nonneg; lia).
    split; intros; lia.
Qed.

Lemma start_mask_preserves j c c1 :
  row_inv j c -> start_mask c = Done c1 -> row_ready j c1.
Proof.
  intros Hinv Hrun. pose proof (row_inv_mask_zero j c Hinv) as Hzero.
  destruct Hinv as (Hk & Hm & Hlen & Hidx & Hread & Hwords).
  unfold start_mask in Hrun. destruct (Z.eqb_spec (mask c) 0) as [E|E].
  - apply bind_Done in Hrun as (row' & Hw & Hrun). injection Hrun as <-.
    apply write_Done in Hw as (Hb & ->).
    assert (Hj : j = 32 * (k c + 1)) by tauto.
    unfold row_ready, words_filled; simpl.
    split; [lia|]. split.
    { replace (32 * (k c + 1 + 1) - j - 1) with 31 by lia. reflexivity. }
    split; [rewrite length_insert; exact Hlen|]. split; [exact Hidx|].
    split; [exact Hread|].
    intros q Hq. destruct (Z.eq_dec q (k c + 1)) as [->|Hne].
    + exists 0. split; [apply list_lookup_insert_eq; lia|].
      intros b. rewrite Z.bits_0. unfold mask_bit.
      destruct (Z.leb_spec 0 b); destruct (Z.ltb_spec b 32);
        destruct (Z.ltb_spec (32 * (k c + 1) + 31 - b) j); simpl; try reflexivity; lia.
    + rewrite list_lookup_insert_ne by lia. apply Hwords. lia.
  - injection Hrun as <-. unfold row_ready, words_filled.
    assert (Hj : j <> 32 * (k c + 1)) by tauto.
    split; [lia|]. split; [|auto].
    rewrite Hm. destruct (Z.eqb_spec j (32 * (k c + 1))); [contradiction | reflexivity].
Qed.

Lemma start_mask_completes j c :
  row_inv j c -> 0 <= j < 32 * Z.of_nat len -> exists c1, start_mask c = Done c1.
Proof.
  intros Hinv Hj. pose proof (row_inv_mask_zero j c Hinv) as Hzero.
  destruct Hinv as (Hk & Hm & Hlen & _).
  unfold start_mask. destruct (Z.eqb_spec (mask c) 0) as [E|E]; [|eauto].
  assert (Hw : write (row c) (k c + 1) 0 = Done (<[Z.to_nat (k c + 1) := 0]> (row c))).
  { apply write_Done. split; [|reflexivity]. rewrite Hlen. lia. }
  rewrite Hw. simpl. eauto.
Qed.

Lemma mask_bit_next j q b :
  mask_bit (j + 1) q b =
  mask_bit j q b
  || ((0 <=? b) && (b <? 32) && (32 * q + 31 - b =? j) && source_opaque (first + j)).
Proof.
  unfold mask_bit.
  destruct (Z.leb_spec 0 b); destruct (Z.ltb_spec b 32); simpl; try reflexivity.
  destruct (Z.eqb_spec (32 * q + 31 - b) j) as [E|E].
  - rewrite E. destruct (Z.ltb_spec j (j + 1)); [|lia].
    destruct (Z.ltb_spec j j); [lia|]. simpl. reflexivity.
  - rewrite orb_false_r.
    destruct (Z.ltb_spec (32 * q + 31 - b) (j + 1));
      destruct (Z.ltb_spec (32 * q + 31 - b) j); try reflexivity; lia.
Qed.

(** The pixel [j] is the bit [32 * (k + 1) - j - 1] of mask [k], and of no
    earlier mask. *)
Lemma pixel_position j kc q b :
  32 * kc <= j < 32 * (kc + 1) -> 0 <= q <= kc ->
  (0 <=? b) && (b <? 32) && (32 * q + 31 - b =? j)
  = (q =? kc) && (32 * (kc + 1) - j - 1 =? b).
Proof.
  intros Hk Hq.
  destruct (Z.leb_spec 0 b); destruct (Z.ltb_spec b 32);
    destruct (Z.eqb_spec (32 * q + 31 - b) j); destruct (Z.eqb_spec q kc);
    destruct (Z.eqb_spec (32 * (kc + 1) - j - 1) b); simpl; try reflexivity; lia.
Qed.

Lemma fill_pixel_preserves j c c' :
  0 <= j -> row_inv j c -> fill_pixel pixels colorkey j c = Done c' ->
  row_inv (j + 1) c'.
Proof.
  intros Hj Hinv Hrun. unfold fill_pixel in Hrun.
  apply bind_Done in Hrun as (c1 & Hstart & Hrun).
  apply (start_mask_preserves j) in Hstart; [|exact Hinv].
  destruct Hstart as (Hk & Hm & Hlen & Hidx & Hread & Hwords).
  apply bind_Done in Hrun as (p & Hp & Hrun).
  apply bind_Done in Hrun as (row' & Hrow & Hrun). injection Hrun as <-.
  assert (Hop : source_opaque (first + j) = negb (p =? colorkey)).
  { unfold source_opaque. rewrite <- Hidx, Hp. reflexivity. }
  assert (Hrow' : length row' = len /\
                  forall q, 0 <= q <= k c1 ->
                    exists word, row' !! Z.to_nat q = Some word /\
                                 forall b, Z.testbit word b = mask_bit (j + 1) q b).
  { destruct (negb (p =? colorkey)) eqn:Ep.
    - apply bind_Done in Hrow as (word & Hword & Hwrite).
      apply read_Done in Hword as (_ & Hword).
      apply write_Done in Hwrite as (Hb & ->).
      split; [rewrite length_insert; exact Hlen|].
      intros q Hq. destruct (Hwords q Hq) as (wq & Hwq & Hbits).
      destruct (Z.eq_dec q (k c1)) as [->|Hne].
      + exists (Z.lor word (mask c1)). split; [apply list_lookup_insert_eq; lia|].
        rewrite Hwq in Hword. injection Hword as <-.
        intros b. rewrite Z.lor_spec, Hbits, Hm, Z.pow2_bits_eqb by lia.
        rewrite mask_bit_next, (pixel_position j (k c1)) by lia.
        rewrite Hop, Z.eqb_refl, andb_true_r. reflexivity.
      + exists wq. rewrite list_lookup_insert_ne by lia. split; [exact Hwq|].
        intros b. rewrite Hbits, mask_bit_next, (pixel_position j (k c1)) by lia.
        destruct (Z.eqb_spec q (k c1)); [contradiction|].
        simpl. rewrite orb_false_r. reflexivity.
    - injection Hrow as <-. split; [exact Hlen|].
      intros q Hq. destruct (Hwords q Hq) as (wq & Hwq & Hbits).
      exists wq. split; [exact Hwq|].
      intros b. rewrite Hbits, mask_bit_next, Hop, andb_false_r, orb_false_r.
      reflexivity. }
  destruct Hrow' as (Hlen' & Hwords').
  unfold row_inv, words_filled; simpl.
  split; [lia|]. split.
  - rewrite Hm, shiftr_pow2_1 by lia.
    destruct (Z.eqb_spec (32 * (k c1 + 1) - j - 1) 0);
      destruct (Z.eqb_spec (j + 1) (32 * (k c1 + 1))); try lia.
    f_equal. lia.
  - split; [exact Hlen'|]. split; [lia|]. split; [|exact Hwords'].
    intros j' Hj'. destruct (Z.eq_dec j' j) as [->|Hne].
    + exists p. rewrite <- Hidx. exact Hp.
    + apply Hread. lia.
Qed.

Lemma fill_pixel_completes j c :
  0 <= j < 32 * Z.of_nat len ->
  0 <= first + j < Z.of_nat (length pixels) ->
  row_inv j c -> exists c', fill_pixel pixels colorkey j c = Done c'.
Proof.
  intros Hj Hpix Hinv. unfold fill_pixel.
  destruct (start_mask_completes j c Hinv Hj) as (c1 & Hstart).
  rewrite Hstart. simpl.
  apply (start_mask_preserves j) in Hstart; [|exact Hinv].
  destruct Hstart as (Hk & Hm & Hlen & Hidx & _ & Hwords).
  destruct (read_in_bounds pixels (pixel_index c1)) as (p & Hp); [lia|].
  rewrite Hp. simpl.
  destruct (negb (p =? colorkey)); simpl; [|eauto].
  destruct (read_in_bounds (row c1) (k c1)) as (word & Hword); [lia|].
  rewrite Hword. simpl.
  assert (Hw : write (row c1) (k c1) (Z.lor word (mask c1))
               = Done (<[Z.to_nat (k c1) := Z.lor word (mask c1)]> (row c1))).
  { apply write_Done. split; [lia | reflexivity]. }
  rewrite Hw. simpl. eauto.
Qed.

(** The loop over [j], from the freshly allocated row. *)
Lemma row_inv_initial (junk : list Z) :
  length junk = len ->
  row_inv 0 {| k := -1; mask := 0; row := junk; pixel_index := first |}.
Proof.
  intros Hlen. unfold row_inv, words_filled; simpl.
  split; [lia|]. split; [reflexivity|]. split; [exact Hlen|].
  split; [lia|]. split; intros; lia.
Qed.

End RowFill.

(** ** The constructor *)

(** The number of masks computed for [size] pixels is the least [n] such
    that [32 * n] pixels cover them. *)
Lemma masks_count_bounds (size n : Z) :
  0 <= size ->
  n = (if negb (Z.rem size 32 =? 0) then Z.quot size 32 + 1 else Z.quot size 32) ->
  32 * (n - 1) < size <= 32 * n.
Proof.
  intros Hs ->. rewrite Z.rem_mod_nonneg, Z.quot_div_nonneg by lia.
  pose proof (Z.div_mod size 32 ltac:(lia)) as Hdm.
  pose proof (Z.mod_pos_bound size 32 ltac:(lia)) as Hm.
  destruct (Z.eqb_spec (size mod 32) 0); simpl; lia.
Qed.

Section ConstructorProofs.

Variable uninitialized : Z -> Z -> Z.
Variables (surface : SDL_Surface) (image_position : SDL_Rect).

Let transparent : Z := to_Uint8 (colorkey (format surface)).
Let size : Z := w image_position.
Let nb : Z :=
  if negb (Z.rem size 32 =? 0) then Z.quot size 32 + 1 else Z.quot size 32.
Let first (r : Z) : Z :=
  (y image_position + r) * surface_w surface + x image_position.

(** A row of masks packs the [size] pixels found from index [start]. *)
Definition row_packed (start : Z) (masks : list Z) : Prop :=
  length masks = Z.to_nat nb /\
  (forall j, 0 <= j < size -> exists p, read (pixels surface) (start + j) = Done p) /\
  forall q, 0 <= q < nb ->
    exists word, masks !! Z.to_nat q = Some word /\
                 forall b, Z.testbit word b
                           = mask_bit (pixels surface) transparent start size q b.

Lemma fill_row_preserves i rows index rows' index' :
  0 <= size ->
  fill_row uninitialized surface transparent size nb i (rows, index)
  = Done (rows', index') ->
  0 <= i < Z.of_nat (length rows) /\ index' = index + surface_w surface /\
  exists masks, rows' = <[Z.to_nat i := masks]> rows /\ row_packed index masks.
Proof.
  intros Hsize Hrun. unfold fill_row in Hrun.
  apply bind_Done in Hrun as (c & Hloop & Hrun).
  apply bind_Done in Hrun as (rows2 & Hwrite & Hrun).
  injection Hrun as <- <-. apply write_Done in Hwrite as (Hi & ->).
  apply (for_loop_preserves
           (fun j c => 0 <= j /\
              row_inv (pixels surface) transparent index (Z.to_nat nb) j c)) in Hloop.
  - rewrite Z2Nat.id in Hloop by lia.
    destruct Hloop as (_ & Hk & _ & Hlen & Hidx & Hread & Hwords).
    pose proof (masks_count_bounds size nb Hsize eq_refl) as Hnb.
    split; [exact Hi|]. split; [lia|]. exists (row c). split; [reflexivity|].
    split; [exact Hlen|]. split; [exact Hread|].
    intros q Hq. apply Hwords. lia.
  - intros j t t' Hj (Hj0 & Hinv) Hbody. split; [lia|].
    apply (fill_pixel_preserves _ _ _ _ j t); assumption.
  - split; [lia|]. apply row_inv_initial.
    unfold new_row. rewrite length_map, length_seqZ. reflexivity.
Qed.

Lemma fill_row_completes i rows index :
  0 <= size -> 0 <= i < Z.of_nat (length rows) ->
  (forall j, 0 <= j < size -> 0 <= index + j < Z.of_nat (length (pixels surface))) ->
  exists s, fill_row uninitialized surface transparent size nb i (rows, index) = Done s.
Proof.
  intros Hsize Hi Hpix. unfold fill_row.
  pose proof (masks_count_bounds size nb Hsize eq_refl) as Hnb.
  destruct (for_loop_completes
              (fun j c => 0 <= j /\
                 row_inv (pixels surface) transparent index (Z.to_nat nb) j c)
              (fill_pixel (pixels surface) transparent) (Z.to_nat size) 0
              {| k := -1; mask := 0; row := new_row uninitialized i nb;
                 pixel_index := index |}) as (c & Hc).
  - intros j t Hj (Hj0 & Hinv).
    destruct (fill_pixel_completes (pixels surface) transparent index (Z.to_nat nb) j t)
      as (t' & Ht'); [lia | apply Hpix; lia | exact Hinv |].
    exists t'. split; [exact Ht'|]. split; [lia|].
    apply (fill_pixel_preserves _ _ _ _ j t); assumption.
  - split; [lia|]. apply row_inv_initial.
    unfold new_row. rewrite length_map, length_seqZ. reflexivity.
  - rewrite Hc. simpl.
    assert (Hw : write rows i (row c) = Done (<[Z.to_nat i := row c]> rows))
      by (apply write_Done; split; [exact Hi | reflexivity]).
    rewrite Hw. simpl. eauto.
Qed.

(** Invariant at the head of the loop over [i]. *)
Definition rows_inv (i : Z) (s : list (list Z) * Z) : Prop :=
  length (fst s) = Z.to_nat (h image_position) /\
  snd s = first i /\
  forall r, 0 <= r < i ->
    exists masks, fst s !! Z.to_nat r = Some masks /\ row_packed (first r) masks.

Lemma rows_inv_step i s s' :
  0 <= size -> 0 <= i -> rows_inv i s ->
  fill_row uninitialized surface transparent size nb i s = Done s' ->
  rows_inv (i + 1) s'.
Proof.
  intros Hsize Hi0 (Hlen & Hidx & Hrows) Hrun.
  destruct s as [rows index], s' as [rows' index']. simpl in *.
  apply fill_row_preserves in Hrun as (Hi & -> & masks & -> & Hmasks); [|exact Hsize].
  unfold rows_inv; simpl. split; [rewrite length_insert; exact Hlen|].
  split; [subst index; unfold first; lia|].
  intros r Hr. destruct (Z.eq_dec r i) as [->|Hne].
  - exists masks. split; [apply list_lookup_insert_eq; lia|].
    rewrite <- Hidx. exact Hmasks.
  - rewrite list_lookup_insert_ne by lia. apply Hrows. lia.
Qed.

Lemma PixelBits_new_Done (p : PixelBits) :
  0 <= size ->
  PixelBits_new uninitialized surface image_position = Done p ->
  BitsPerPixel (format surface) = 8 /\
  width p = size /\ height p = h image_position /\ nb_integers_per_row p = nb /\
  length (bits p) = Z.to_nat (h image_position) /\
  forall r, 0 <= r < h image_position ->
    exists masks, bits p !! Z.to_nat r = Some masks /\ row_packed (first r) masks.
Proof.
  intros Hsize Hrun. unfold PixelBits_new in Hrun.
  apply bind_Done in Hrun as ([] & Hfmt & Hrun).
  apply bind_Done in Hrun as (s & Hloop & Hrun). injection Hrun as <-. simpl.
  split.
  { destruct (Z.eqb_spec (BitsPerPixel (format surface)) 8); [assumption|].
    discriminate Hfmt. }
  do 3 (split; [reflexivity|]).
  apply (for_loop_preserves (fun i s => 0 <= i /\ rows_inv i s)) in Hloop.
  - destruct Hloop as (_ & Hlen & _ & Hrows). split; [exact Hlen|].
    intros r Hr. apply Hrows. lia.
  - intros j t t' Hj (Hj0 & Hinv) Hbody. split; [lia|].
    apply (rows_inv_step j t); assumption.
  - split; [lia|]. unfold rows_inv; simpl. rewrite length_replicate.
    split; [reflexivity|]. split; [unfold first; lia|]. intros; lia.
Qed.

Lemma PixelBits_new_completes :
  BitsPerPixel (format surface) = 8 -> 0 <= size ->
  image_in_surface surface image_position ->
  exists p, PixelBits_new uninitialized surface image_position = Done p.
Proof.
  intros Hfmt Hsize Hin. unfold PixelBits_new. rewrite Hfmt. simpl.
  destruct (for_loop_completes (fun i s => 0 <= i /\ rows_inv i s)
              (fill_row uninitialized surface transparent size nb)
              (Z.to_nat (h image_position)) 0
              (replicate (Z.to_nat (h image_position)) [],
               y image_position * surface_w surface + x image_position))
    as (s & Hs).
  - intros j [rows index] Hj (Hj0 & Hinv).
    destruct (fill_row_completes j rows index) as (t' & Ht'); [exact Hsize | | |].
    + destruct Hinv as (Hlen & _). simpl in Hlen. lia.
    + destruct Hinv as (_ & Hidx & _). simpl in Hidx. subst index.
      intros c Hc. unfold first. apply (Hin j c); lia.
    + exists t'. split; [exact Ht'|]. split; [lia|].
      apply (rows_inv_step j (rows, index)); assumption.
  - split; [lia|]. unfold rows_inv; simpl. rewrite length_replicate.
    split; [reflexivity|]. split; [unfold first; lia|]. intros; lia.
  - fold transparent size nb. rewrite Hs. simpl. eauto.
Qed.

End ConstructorProofs.

Lemma bit_at_packed (surface : SDL_Surface) (image_position : SDL_Rect)
    (p : PixelBits) (start row col : Z) (masks : list Z) :
  0 <= row -> bits p !! Z.to_nat row = Some masks ->
  row_packed surface image_position start masks ->
  0 <= col < 32 * (if negb (Z.rem (w image_position) 32 =? 0)
                   then Z.quot (w image_position) 32 + 1
                   else Z.quot (w image_position) 32) ->
  bit_at p row col
  = Done ((col <? w image_position)
          && source_opaque (pixels surface) (to_Uint8 (colorkey (format surface)))
                           (start + col)).
Proof.
  intros Hrow Hmasks (Hlen & _ & Hwords) Hcol.
  unfold bit_at.
  assert (Hr : read (bits p) row = Done masks) by (apply read_Done; auto).
  rewrite Hr. simpl.
  rewrite Z.rem_mod_nonneg, Z.quot_div_nonneg by lia.
  pose proof (Z.div_mod col 32 ltac:(lia)) as Hdm.
  pose proof (Z.mod_pos_bound col 32 ltac:(lia)) as Hm.
  destruct (Hwords (col / 32)) as (word & Hword & Hbits); [lia|].
  assert (Hq : read masks (col / 32) = Done word) by (apply read_Done; split; [lia | auto]).
  rewrite Hq. simpl. rewrite Hbits. unfold mask_bit.
  replace (32 * (col / 32) + 31 - (31 - col mod 32)) with col by lia.
  destruct (Z.leb_spec 0 (31 - col mod 32)); [|lia].
  destruct (Z.ltb_spec (31 - col mod 32) 32); [|lia].
  reflexivity.
Qed.

(** C4: under a positive width and height, the bitmap the constructor builds
    from an 8-bit surface has the bit of row [row] and column [col] set exactly
    when the pixel of the surface at that place of the image differs from the
    transparent index, and the bits of the last mask of each row past the
    width are 0; and the constructor does build it when the image lies within
    the surface. *)
Theorem PixelBits_new_bits (uninitialized : Z -> Z -> Z)
    (surface : SDL_Surface) (image_position : SDL_Rect) :
  0 < w image_position -> 0 < h image_position ->
  (BitsPerPixel (format surface) = 8 -> image_in_surface surface image_position ->
   exists p, PixelBits_new uninitialized surface image_position = Done p) /\
  forall p, PixelBits_new uninitialized surface image_position = Done p ->
    forall row col, 0 <= row < h image_position ->
      (0 <= col < w image_position ->
       exists pixel,
         source_pixel surface image_position row col = Done pixel /\
         bit_at p row col
         = Done (negb (pixel =? to_Uint8 (colorkey (format surface))))) /\
      (w image_position <= col < 32 * nb_integers_per_row p ->
       bit_at p row col = Done false).
Proof.
  intros Hw Hh. split.
  { intros Hfmt Hin. apply PixelBits_new_completes; [exact Hfmt | lia | exact Hin]. }
  intros p Hrun row col Hrow.
  apply PixelBits_new_Done in Hrun as (_ & _ & _ & Hnb & _ & Hrows); [|lia].
  destruct (Hrows row Hrow) as (masks & Hmasks & Hpacked).
  pose proof (masks_count_bounds (w image_position) _ ltac:(lia) Hnb) as Hbounds.
  split; intros Hcol.
  - destruct Hpacked as (Hlen & Hread & Hwords).
    destruct (Hread col Hcol) as (pixel & Hpixel).
    exists pixel. split; [exact Hpixel|].
    rewrite (bit_at_packed surface image_position p _ row col masks
               ltac:(lia) Hmasks (conj Hlen (conj Hread Hwords))) by lia.
    unfold source_opaque. rewrite Hpixel.
    destruct (Z.ltb_spec col (w image_position)); [reflexivity | lia].
  - rewrite (bit_at_packed surface image_position p _ row col masks
               ltac:(lia) Hmasks Hpacked) by lia.
    destruct (Z.ltb_spec col (w image_position)); [lia | reflexivity].
Qed.

(** C8: for a positive width, the number of masks per row of the bitmap that
    the constructor builds is the ceiling of [width / 32]: the least [n] with
    [width <= 32 * n], that is [(width + 31) / 32]; it is [width / 32] when
    the width is a multiple of 32 and 1 when the width is 1. *)
Theorem PixelBits_new_nb_integers_per_row (uninitialized : Z -> Z -> Z)
    (surface : SDL_Surface) (image_position : SDL_Rect) (p : PixelBits) :
  0 < w image_position ->
  PixelBits_new uninitialized surface image_position = Done p ->
  width p = w image_position /\
  32 * (nb_integers_per_row p - 1) < width p <= 32 * nb_integers_per_row p /\
  nb_integers_per_row p = (width p + 31) / 32 /\
  (width p mod 32 = 0 -> nb_integers_per_row p = width p / 32) /\
  (width p = 1 -> nb_integers_per_row p = 1).
Proof.
  intros Hw Hrun.
  apply PixelBits_new_Done in Hrun as (_ & Hwidth & _ & Hnb & _); [|lia].
  pose proof (masks_count_bounds (w image_position) _ ltac:(lia) Hnb) as Hbounds.
  rewrite Hwidth. split; [reflexivity|]. split; [exact Hbounds|].
  pose proof (Z.div_mod (w image_position + 31) 32 ltac:(lia)).
  pose proof (Z.mod_pos_bound (w image_position + 31) 32 ltac:(lia)).
  pose proof (Z.div_mod (w image_position) 32 ltac:(lia)).
  pose proof (Z.mod_pos_bound (w image_position) 32 ltac:(lia)).
  repeat split; intros; lia.
Qed.

(** Faults of the constructor other than the format error come from an
    access outside of an array. *)
Definition format_accepted {A : Type} (m : outcome A) : Prop :=
  match m with
  | Abort (UnsupportedFormatError _) => False
  | _ => True
  end.

Lemma format_accepted_bind {A B : Type} (m : outcome A) (f : A -> outcome B) :
  format_accepted m -> (forall a, format_accepted (f a)) -> format_accepted (bind m f).
Proof. destruct m as [a|e]; simpl; auto. Qed.

Lemma format_accepted_read {A : Type} (a : list A) (i : Z) : format_accepted (read a i).
Proof. unfold read. destruct (i <? 0); [exact I|]. destruct (a !! Z.to_nat i); exact I. Qed.

Lemma format_accepted_write {A : Type} (a : list A) (i : Z) (v : A) :
  format_accepted (write a i v).
Proof. unfold write. destruct ((0 <=? i) && (i <? Z.of_nat (length a))); exact I. Qed.

Lemma format_accepted_for_loop {T : Type} (body : Z -> T -> outcome T) :
  (forall j t, format_accepted (body j t)) ->
  forall n i s, format_accepted (for_loop n i body s).
Proof.
  intros Hbody. induction n as [|n IH]; intros i s; simpl; [exact I|].
  apply format_accepted_bind; auto.
Qed.

Lemma format_accepted_fill_row uninitialized surface colorkey width nb i s :
  format_accepted (fill_row uninitialized surface colorkey width nb i s).
Proof.
  destruct s as [rows index]. unfold fill_row.
  apply format_accepted_bind.
  - apply format_accepted_for_loop. intros j c. unfold fill_pixel.
    apply format_accepted_bind.
    { unfold start_mask. destruct (mask c =? 0); [|exact I].
      apply format_accepted_bind; [apply format_accepted_write | intros; exact I]. }
    intros c1. apply format_accepted_bind; [apply format_accepted_read|].
    intros p. apply format_accepted_bind; [|intros; exact I].
    destruct (negb (p =? colorkey)); [|exact I].
    apply format_accepted_bind; [apply format_accepted_read|].
    intros word. apply format_accepted_write.
  - intros c. apply format_accepted_bind; [apply format_accepted_write | intros; exact I].
Qed.

(** C9: on a surface that is not 8 bits per pixel the constructor stops on
    the fatal format error and builds nothing; on an 8-bit surface it never
    reports that error, and it builds the bitmap of every image that lies
    within the surface.  So a bitmap is built only from an 8-bit surface. *)
Theorem PixelBits_new_format (uninitialized : Z -> Z -> Z)
    (surface : SDL_Surface) (image_position : SDL_Rect) :
  (BitsPerPixel (format surface) <> 8 ->
   PixelBits_new uninitialized surface image_position
   = Abort (UnsupportedFormatError "This surface should have an 8-bit pixel format")) /\
  (BitsPerPixel (format surface) = 8 ->
   format_accepted (PixelBits_new uninitialized surface image_position)) /\
  (BitsPerPixel (format surface) = 8 ->
   0 <= w image_position -> image_in_surface surface image_position ->
   exists p, PixelBits_new uninitialized surface image_position = Done p) /\
  (forall p, PixelBits_new uninitialized surface image_position = Done p ->
             BitsPerPixel (format surface) = 8).
Proof.
  split; [|split; [|split]].
  - intros Hfmt. unfold PixelBits_new.
    destruct (Z.eqb_spec (BitsPerPixel (format surface)) 8); [contradiction|].
    reflexivity.
  - intros Hfmt. unfold PixelBits_new. rewrite Hfmt. simpl.
    apply format_accepted_bind; [|intros; exact I].
    apply format_accepted_for_loop. intros j t. apply format_accepted_fill_row.
  - apply PixelBits_new_completes.
  - intros p Hrun. unfold PixelBits_new in Hrun.
    destruct (Z.eqb_spec (BitsPerPixel (format surface)) 8); [assumption|].
    discriminate Hrun.
Qed.

(** ** The rectangle test *)

Lemma check_rectangle_collision_true (rectangle1 rectangle2 : SDL_Rect) :
  check_rectangle_collision rectangle1 rectangle2 = true <->
  x rectangle2 < x rectangle1 + w rectangle1 /\
  x rectangle1 < x rectangle2 + w rectangle2 /\
  y rectangle2 < y rectangle1 + h rectangle1 /\
  y rectangle1 < y rectangle2 + h rectangle2.
Proof.
  unfold check_rectangle_collision.
  rewrite !andb_true_iff, !Z.ltb_lt. tauto.
Qed.

(** C6: two rectangles are reported as overlapping exactly when
    [x2 < x1 + w1], [x1 < x2 + w2], [y2 < y1 + h1] and [y1 < y2 + h2]; so two
    rectangles where one starts, along either axis, exactly where the other
    ends are reported as not overlapping. *)
Theorem check_rectangle_collision_spec (rectangle1 rectangle2 : SDL_Rect) :
  (check_rectangle_collision rectangle1 rectangle2 = true <->
   x rectangle2 < x rectangle1 + w rectangle1 /\
   x rectangle1 < x rectangle2 + w rectangle2 /\
   y rectangle2 < y rectangle1 + h rectangle1 /\
   y rectangle1 < y rectangle2 + h rectangle2) /\
  (x rectangle2 = x rectangle1 + w rectangle1 \/
   x rectangle1 = x rectangle2 + w rectangle2 \/
   y rectangle2 = y rectangle1 + h rectangle1 \/
   y rectangle1 = y rectangle2 + h rectangle2 ->
   check_rectangle_collision rectangle1 rectangle2 = false).
Proof.
  split; [apply check_rectangle_collision_true|].
  intros Htouch. apply not_true_is_false.
  intros Hc. apply check_rectangle_collision_true in Hc. lia.
Qed.

(** ** The collision test *)

(** C7: when the bounding boxes of the two bitmaps, taken at the two
    locations with the width and height of each bitmap, do not overlap for
    the rectangle test, the collision test answers [false] whatever the rows
    of masks of the two bitmaps hold. *)
Theorem check_collision_bounding_boxes_apart
    (this other : PixelBits) (location1 location2 : SDL_Rect) :
  check_rectangle_collision (bounding_box this location1) (bounding_box other location2)
  = false ->
  forall bits1 bits2 : list (list Z),
    check_collision
      {| width := width this; height := height this;
         nb_integers_per_row := nb_integers_per_row this; bits := bits1 |}
      {| width := width other; height := height other;
         nb_integers_per_row := nb_integers_per_row other; bits := bits2 |}
      location1 location2
    = Done false.
Proof.
  intros Hapart bits1 bits2. unfold check_collision.
  unfold bounding_box in *. simpl. rewrite Hapart. reflexivity.
Qed.

(** The shape of a bitmap: [height] rows of [nb_integers_per_row] masks,
    enough of them for [width] pixels. *)
Definition well_formed (p : PixelBits) : Prop :=
  0 < width p /\ 0 < height p /\
  32 * (nb_integers_per_row p - 1) < width p <= 32 * nb_integers_per_row p /\
  length (bits p) = Z.to_nat (height p) /\
  forall r masks, bits p !! r = Some masks ->
                  length masks = Z.to_nat (nb_integers_per_row p).

Lemma PixelBits_new_well_formed (uninitialized : Z -> Z -> Z)
    (surface : SDL_Surface) (image_position : SDL_Rect) (p : PixelBits) :
  0 < w image_position -> 0 < h image_position ->
  PixelBits_new uninitialized surface image_position = Done p -> well_formed p.
Proof.
  intros Hw Hh Hrun.
  apply PixelBits_new_Done in Hrun as (_ & Hwidth & Hheight & Hnb & Hlen & Hrows);
    [|lia].
  pose proof (masks_count_bounds (w image_position) _ ltac:(lia) Hnb) as Hbounds.
  unfold well_formed. rewrite Hwidth, Hheight.
  repeat (split; [assumption || lia|]).
  intros r masks Hr. pose proof (lookup_lt_Some _ _ _ Hr) as Hlt.
  destruct (Hrows (Z.of_nat r)) as (masks' & Hmasks' & Hlen' & _); [lia|].
  rewrite Nat2Z.id, Hr in Hmasks'. injection Hmasks' as <-.
  rewrite Hlen', Hnb. reflexivity.
Qed.

(** The roles that [check_collision] gives to the two bitmaps: row a comes
    from the bounding box that starts further right. *)
Definition bitmap_a (this other : PixelBits) (location1 location2 : SDL_Rect) : PixelBits :=
  if x location1 >? x location2 then this else other.

Definition bitmap_b (this other : PixelBits) (location1 location2 : SDL_Rect) : PixelBits :=
  if x location1 >? x location2 then other else this.

Definition location_a (location1 location2 : SDL_Rect) : SDL_Rect :=
  if x location1 >? x location2 then location1 else location2.

Definition location_b (location1 location2 : SDL_Rect) : SDL_Rect :=
  if x location1 >? x location2 then location2 else location1.

(** A loop over masks or rows stays within the arrays when each iteration does. *)
Lemma for_until_in_bounds (body : Z -> outcome bool) :
  forall (n : nat) (i : Z) (collision : bool),
    (forall j, i <= j < i + Z.of_nat n -> body j <> Abort OutOfBounds) ->
    for_until n i body collision <> Abort OutOfBounds.
Proof.
  induction n as [|n IH]; intros i collision Hbody; simpl; [discriminate|].
  destruct collision; [discriminate|].
  destruct (body i) as [c|e] eqn:E; simpl.
  - apply IH. intros j Hj. apply Hbody. lia.
  - rewrite <- E. apply Hbody. lia.
Qed.

Lemma bind_in_bounds {A B : Type} (m : outcome A) (f : A -> outcome B) :
  m <> Abort OutOfBounds -> (forall a, m = Done a -> f a <> Abort OutOfBounds) ->
  bind m f <> Abort OutOfBounds.
Proof.
  destruct m as [a|e]; simpl; intros Hm Hf; [apply Hf; reflexivity|].
  intros [= ->]. apply Hm. reflexivity.
Qed.

Lemma shr_in_bounds (v n : Z) : shr v n <> Abort OutOfBounds.
Proof. unfold shr. destruct ((0 <=? n) && (n <? 32)); discriminate. Qed.

Section Geometry.

Variables (this other : PixelBits) (location1 location2 : SDL_Rect).

Let l : locals :=
  assign_rows this other (bounding_box this location1) (bounding_box other location2).
Let a : PixelBits := bitmap_a this other location1 location2.
Let b : PixelBits := bitmap_b this other location1 location2.

Hypothesis overlap :
  check_rectangle_collision (bounding_box this location1) (bounding_box other location2)
  = true.
Hypothesis shape1 : well_formed this.
Hypothesis shape2 : well_formed other.

Lemma assign_rows_geometry :
  base (rows_a l) = bits a /\ base (rows_b l) = bits b /\
  0 <= offset (rows_a l) /\ offset (rows_a l) + h (intersection l) <= height a /\
  0 <= offset (rows_b l) /\ offset (rows_b l) + h (intersection l) <= height b /\
  0 <= nb_unused_masks_row_b l /\ 0 <= nb_unused_bits_row_b l < 32 /\
  nb_used_bits_row_b l = 32 - nb_unused_bits_row_b l /\
  0 < w (intersection l) <= width a /\
  32 * (nb_masks_per_row_a l - 1) < w (intersection l) <= 32 * nb_masks_per_row_a l /\
  w (intersection l) + 32 * nb_unused_masks_row_b l + nb_unused_bits_row_b l
    <= width b /\
  has_row_b_additional_mask l
  = (nb_masks_per_row_a l + nb_unused_masks_row_b l + 1 <? nb_integers_per_row b).
Proof.
  apply check_rectangle_collision_true in overlap. simpl in overlap.
  destruct shape1 as (Hw1 & Hh1 & _). destruct shape2 as (Hw2 & Hh2 & _).
  unfold l, a, b, assign_rows, bitmap_a, bitmap_b. simpl.
  remember (MAX (x location1) (x location2)) as ix eqn:Eix.
  remember (MAX (y location1) (y location2)) as iy eqn:Eiy.
  remember (MIN (x location1 + width this) (x location2 + width other)) as ex eqn:Eex.
  remember (MIN (y location1 + height this) (y location2 + height other)) as ey eqn:Eey.
  unfold MAX in Eix, Eiy. unfold MIN in Eex, Eey.
  remember (if negb (Z.rem (ex - ix) 32 =? 0)
            then Z.quot (ex - ix) 32 + 1 else Z.quot (ex - ix) 32) as n eqn:En.
  destruct (Z.gtb_spec (y location1) (y location2));
    destruct (Z.ltb_spec (y location1 + height this) (y location2 + height other));
    destruct (Z.ltb_spec (x location1 + width this) (x location2 + width other));
    destruct (Z.gtb_spec (x location1) (x location2)); subst ix iy ex ey; simpl;
    apply masks_count_bounds in En; try lia;
    rewrite ?Z.rem_mod_nonneg, ?Z.quot_div_nonneg by lia;
    repeat split; try reflexivity; try (Z.div_mod_to_equations; lia).
Qed.

(** Row a starts at the left edge of the intersection, row b
    [32 * nb_unused_masks_row_b + nb_unused_bits_row_b] pixels before it; the
    intersection ends where one of the two bitmaps ends. *)
Lemma assign_rows_alignment :
  x (location_a location1 location2) - x (location_b location1 location2)
  = 32 * nb_unused_masks_row_b l + nb_unused_bits_row_b l /\
  y (location_a location1 location2) + offset (rows_a l)
  = y (location_b location1 location2) + offset (rows_b l) /\
  (offset (rows_a l) = 0 \/ offset (rows_b l) = 0) /\
  (offset (rows_a l) + h (intersection l) = height a \/
   offset (rows_b l) + h (intersection l) = height b) /\
  (w (intersection l) = width a \/
   w (intersection l) + 32 * nb_unused_masks_row_b l + nb_unused_bits_row_b l
   = width b).
Proof.
  apply check_rectangle_collision_true in overlap. simpl in overlap.
  destruct shape1 as (Hw1 & Hh1 & _). destruct shape2 as (Hw2 & Hh2 & _).
  unfold l, a, b, assign_rows, bitmap_a, bitmap_b, location_a, location_b. simpl.
  remember (MAX (x location1) (x location2)) as ix eqn:Eix.
  remember (MAX (y location1) (y location2)) as iy eqn:Eiy.
  remember (MIN (x location1 + width this) (x location2 + width other)) as ex eqn:Eex.
  remember (MIN (y location1 + height this) (y location2 + height other)) as ey eqn:Eey.
  unfold MAX in Eix, Eiy. unfold MIN in Eex, Eey.
  destruct (Z.gtb_spec (y location1) (y location2));
    destruct (Z.ltb_spec (y location1 + height this) (y location2 + height other));
    destruct (Z.ltb_spec (x location1 + width this) (x location2 + width other));
    destruct (Z.gtb_spec (x location1) (x location2)); subst ix iy ex ey; simpl;
    rewrite ?Z.rem_mod_nonneg, ?Z.quot_div_nonneg by lia;
    (split; [Z.div_mod_to_equations; lia|]);
    (split; [lia|]); (split; [lia|]); (split; [lia|]);
    Z.div_mod_to_equations; lia.
Qed.

Lemma roles_well_formed : well_formed a /\ well_formed b.
Proof.
  unfold a, b, bitmap_a, bitmap_b.
  destruct (x location1 >? x location2); auto.
Qed.

Lemma index_bounds (i j : Z) :
  0 <= i < h (intersection l) -> 0 <= j < nb_masks_per_row_a l ->
  0 <= offset (rows_a l) + i < height a /\
  0 <= offset (rows_b l) + i < height b /\
  0 <= j < nb_integers_per_row a /\
  0 <= j + nb_unused_masks_row_b l < nb_integers_per_row b /\
  (has_row_b_additional_mask l = true ->
   0 <= j + nb_unused_masks_row_b l + 1 < nb_integers_per_row b).
Proof.
  intros Hi Hj.
  destruct assign_rows_geometry
    as (_ & _ & Hoa & Hha & Hob & Hhb & Hum & Hub & _ & Hiw & Hn & Hwb & Hflag).
  destruct roles_well_formed as ((_ & _ & Hna & _) & (_ & _ & Hnb & _)).
  do 4 (split; [lia|]).
  intros Hadd. rewrite Hflag in Hadd. apply Z.ltb_lt in Hadd. lia.
Qed.

Lemma compare_rows_in_bounds (i : Z) :
  0 <= i < h (intersection l) -> compare_rows l i <> Abort OutOfBounds.
Proof.
  intros Hi.
  destruct assign_rows_geometry as (Hba & Hbb & _).
  destruct roles_well_formed as ((_ & _ & _ & Hla & Hma) & (_ & _ & _ & Hlb & Hmb)).
  assert (Hrows : 0 <= offset (rows_a l) + i < height a /\
                  0 <= offset (rows_b l) + i < height b).
  { destruct (Z_lt_le_dec 0 (nb_masks_per_row_a l)) as [Hpos|Hnone].
    - destruct (index_bounds i 0) as (? & ? & _); [exact Hi | lia | auto].
    - destruct assign_rows_geometry as (_ & _ & _ & _ & _ & _ & _ & _ & _ & ? & ? & _).
      lia. }
  unfold compare_rows, deref. rewrite Hba, Hbb.
  destruct (read_in_bounds (bits a) (offset (rows_a l) + i)) as (bits_a & Ha); [lia|].
  destruct (read_in_bounds (bits b) (offset (rows_b l) + i)) as (bits_b & Hb); [lia|].
  rewrite Ha, Hb. simpl.
  apply read_Done in Ha as (_ & Ha). apply Hma in Ha.
  apply read_Done in Hb as (_ & Hb). apply Hmb in Hb.
  apply for_until_in_bounds. intros j Hj.
  destruct (index_bounds i j) as (_ & _ & Hja & Hjb & Hjb'); [exact Hi | lia |].
  unfold compare_masks.
  destruct (read_in_bounds bits_a j) as (mask_a & Hmask_a); [lia|].
  destruct (read_in_bounds bits_b (j + nb_unused_masks_row_b l)) as (mask_b & Hmask_b);
    [lia|].
  rewrite Hmask_a, Hmask_b. simpl.
  apply bind_in_bounds.
  - destruct (has_row_b_additional_mask l); [|discriminate].
    destruct (read_in_bounds bits_b (j + nb_unused_masks_row_b l + 1))
      as (next & Hnext); [specialize (Hjb' eq_refl); lia|].
    rewrite Hnext. simpl. apply shr_in_bounds.
  - intros next_mask_b_left _.
    apply bind_in_bounds; [apply shr_in_bounds | discriminate].
Qed.

End Geometry.

(** C10: when the bounding boxes of two well-formed bitmaps overlap, every
    access of the collision test stays within the arrays: for each row [i] of
    the intersection and each mask index [j] of the loop, the rows read are
    rows of the two bitmaps, the mask read in row a and the one or two masks
    read in row b exist; hence the test never leaves an array. *)
Theorem check_collision_accesses_in_bounds
    (this other : PixelBits) (location1 location2 : SDL_Rect) :
  well_formed this -> well_formed other ->
  check_rectangle_collision (bounding_box this location1) (bounding_box other location2)
  = true ->
  let l := assign_rows this other
             (bounding_box this location1) (bounding_box other location2) in
  let a := bitmap_a this other location1 location2 in
  let b := bitmap_b this other location1 location2 in
  base (rows_a l) = bits a /\ base (rows_b l) = bits b /\
  (forall i j,
     0 <= i < h (intersection l) -> 0 <= j < nb_masks_per_row_a l ->
     0 <= offset (rows_a l) + i < height a /\
     0 <= offset (rows_b l) + i < height b /\
     0 <= j < nb_integers_per_row a /\
     0 <= j + nb_unused_masks_row_b l < nb_integers_per_row b /\
     (has_row_b_additional_mask l = true ->
      0 <= j + nb_unused_masks_row_b l + 1 < nb_integers_per_row b)) /\
  check_collision this other location1 location2 <> Abort OutOfBounds.
Proof.
  intros Hthis Hother Hoverlap l a b.
  destruct (assign_rows_geometry this other location1 location2 Hoverlap Hthis Hother)
    as (Hba & Hbb & _).
  split; [exact Hba|]. split; [exact Hbb|]. split.
  - intros i j. apply index_bounds; assumption.
  - unfold check_collision. rewrite Hoverlap. simpl.
    apply for_until_in_bounds. intros i Hi.
    apply compare_rows_in_bounds; try assumption.
    fold l in Hi |- *. lia.
Qed.

(** ** What a collision is *)

(** The point [(px, py)] of the map is covered by an opaque pixel of the
    bitmap [p] placed at [location]. *)
Definition opaque_at (p : PixelBits) (location : SDL_Rect) (px py : Z) : Prop :=
  0 <= py - y location < height p /\ 0 <= px - x location < width p /\
  bit_at p (py - y location) (px - x location) = Done true.

(** Some point of the map is covered by an opaque pixel of each bitmap. *)
Definition overlapping (p1 : PixelBits) (location1 : SDL_Rect)
    (p2 : PixelBits) (location2 : SDL_Rect) : Prop :=
  exists px py, opaque_at p1 location1 px py /\ opaque_at p2 location2 px py.

(** The masks of a bitmap hold nothing but its pixels: a mask is a [Uint32],
    and its set bits stand for pixels within the width. *)
Definition tidy (p : PixelBits) : Prop :=
  forall (r q : nat) (masks : list Z) (word : Z),
    bits p !! r = Some masks -> masks !! q = Some word ->
    0 <= word /\
    forall b, Z.testbit word b = true ->
              0 <= b < 32 /\ 32 * Z.of_nat q + 31 - b < width p.

Lemma bits_below_nonneg (word bound : Z) :
  (forall b, Z.testbit word b = true -> b < bound) -> 0 <= word.
Proof.
  intros Hbits. destruct (Z_lt_le_dec word 0) as [Hneg|]; [|assumption].
  apply Z.bits_iff_neg_ex in Hneg as (m & Hm).
  assert (Hgt : m < Z.max (m + 1) bound) by lia.
  apply Hm in Hgt. apply Hbits in Hgt. lia.
Qed.

Lemma PixelBits_new_tidy (uninitialized : Z -> Z -> Z)
    (surface : SDL_Surface) (image_position : SDL_Rect) (p : PixelBits) :
  0 < w image_position -> 0 < h image_position ->
  PixelBits_new uninitialized surface image_position = Done p -> tidy p.
Proof.
  intros Hw Hh Hrun.
  apply PixelBits_new_Done in Hrun as (_ & Hwidth & _ & _ & Hlen & Hrows); [|lia].
  intros r q masks word Hr Hq.
  pose proof (lookup_lt_Some _ _ _ Hr) as Hlt.
  destruct (Hrows (Z.of_nat r)) as (masks' & Hmasks' & Hlen' & _ & Hwords); [lia|].
  rewrite Nat2Z.id, Hr in Hmasks'. injection Hmasks' as <-.
  pose proof (lookup_lt_Some _ _ _ Hq) as Hlt'.
  destruct (Hwords (Z.of_nat q)) as (word' & Hword' & Hbits); [lia|].
  rewrite Nat2Z.id, Hq in Hword'. injection Hword' as <-.
  assert (Hset : forall b, Z.testbit word b = true ->
                           0 <= b < 32 /\ 32 * Z.of_nat q + 31 - b < width p).
  { intros b Hb. rewrite Hbits in Hb. unfold mask_bit in Hb.
    rewrite !andb_true_iff in Hb. destruct Hb as (((H0 & H32) & Hlt'') & _).
    apply Z.leb_le in H0. apply Z.ltb_lt in H32. apply Z.ltb_lt in Hlt''. lia. }
  split; [|exact Hset].
  apply (bits_below_nonneg word 32). intros b Hb. apply Hset in Hb. lia.
Qed.

(** A nonzero conjunction of two masks has a bit set in both. *)
Lemma land_nonzero (u v : Z) :
  0 <= u -> Z.land u v <> 0 ->
  exists b, 0 <= b /\ Z.testbit u b = true /\ Z.testbit v b = true.
Proof.
  intros Hu Hne.
  assert (Hpos : 0 < Z.land u v).
  { pose proof (proj2 (Z.land_nonneg u v) (or_introl Hu)). lia. }
  exists (Z.log2 (Z.land u v)). split; [apply Z.log2_nonneg|].
  apply Z.bit_log2 in Hpos. rewrite Z.land_spec in Hpos.
  apply andb_true_iff in Hpos. exact Hpos.
Qed.

Lemma land_zero (u v b : Z) :
  Z.land u v = 0 -> Z.testbit u b = true -> Z.testbit v b = true -> False.
Proof.
  intros Hz Hu Hv.
  assert (H : Z.testbit (Z.land u v) b = true) by (rewrite Z.land_spec, Hu, Hv; reflexivity).
  rewrite Hz, Z.bits_0 in H. discriminate.
Qed.

(** What the loops with early exit return. *)
Lemma for_until_collision (body : Z -> outcome bool) (n : nat) (i : Z) :
  for_until n i body true = Done true.
Proof. destruct n; reflexivity. Qed.

Lemma for_until_true (body : Z -> outcome bool) :
  forall (n : nat) (i : Z),
    for_until n i body false = Done true ->
    exists j, i <= j < i + Z.of_nat n /\ body j = Done true.
Proof.
  induction n as [|n IH]; intros i Hrun; simpl in Hrun; [discriminate|].
  apply bind_Done in Hrun as ([|] & Hbody & Hrest).
  - exists i. split; [lia | exact Hbody].
  - destruct (IH _ Hrest) as (j & Hj & Hbj). exists j. split; [lia | exact Hbj].
Qed.

Lemma for_until_false (body : Z -> outcome bool) :
  forall (n : nat) (i : Z),
    for_until n i body false = Done false ->
    forall j, i <= j < i + Z.of_nat n -> body j = Done false.
Proof.
  induction n as [|n IH]; intros i Hrun j Hj; simpl in Hrun; [lia|].
  apply bind_Done in Hrun as ([|] & Hbody & Hrest).
  - rewrite for_until_collision in Hrest. discriminate.
  - destruct (Z.eq_dec j i) as [->|Hne]; [exact Hbody|].
    apply (IH _ Hrest). lia.
Qed.

Lemma shr_Done (v n r : Z) :
  shr v n = Done r -> 0 <= n < 32 /\ r = Z.shiftr v n.
Proof.
  unfold shr. destruct (Z.leb_spec 0 n); destruct (Z.ltb_spec n 32); simpl;
    intros [= <-]. split; [lia | reflexivity].
Qed.

(** The comparison of one mask of row a, when it completes. *)
Lemma compare_masks_Done (l : locals) (bits_a bits_b : list Z) (j : Z) (r : bool) :
  compare_masks l bits_a bits_b j = Done r ->
  exists mask_a mask_b next_mask_b_left,
    read bits_a j = Done mask_a /\
    read bits_b (j + nb_unused_masks_row_b l) = Done mask_b /\
    (if has_row_b_additional_mask l
     then exists next, read bits_b (j + nb_unused_masks_row_b l + 1) = Done next /\
                       0 <= nb_used_bits_row_b l < 32 /\
                       next_mask_b_left = Z.shiftr next (nb_used_bits_row_b l)
     else next_mask_b_left = 0) /\
    0 <= nb_unused_bits_row_b l < 32 /\
    r = negb (Z.lor (Z.land (Z.shiftr mask_a (nb_unused_bits_row_b l)) mask_b)
                    (Z.land mask_a next_mask_b_left) =? 0).
Proof.
  unfold compare_masks. intros Hrun.
  apply bind_Done in Hrun as (mask_a & Ha & Hrun).
  apply bind_Done in Hrun as (mask_b & Hb & Hrun).
  apply bind_Done in Hrun as (next_left & Hnext & Hrun).
  apply bind_Done in Hrun as (mask_a_left & Hleft & Hrun).
  injection Hrun as <-. apply shr_Done in Hleft as (Hub & ->).
  exists mask_a, mask_b, next_left.
  repeat (split; [assumption || lia|]). split; [|split; [exact Hub | reflexivity]].
  destruct (has_row_b_additional_mask l).
  - apply bind_Done in Hnext as (next & Hn & Hshift).
    apply shr_Done in Hshift as (Hused & ->). exists next. auto.
  - injection Hnext as <-. reflexivity.
Qed.

(** Reading a bit of a bitmap, mask by mask. *)
Lemma bit_at_word (p : PixelBits) (row q bit : Z) (masks : list Z) (word : Z) :
  read (bits p) row = Done masks -> read masks q = Done word ->
  0 <= q -> 0 <= bit < 32 ->
  bit_at p row (32 * q + 31 - bit) = Done (Z.testbit word bit).
Proof.
  intros Hrow Hword Hq Hbit. unfold bit_at. rewrite Hrow. simpl.
  rewrite Z.rem_mod_nonneg, Z.quot_div_nonneg by lia.
  replace ((32 * q + 31 - bit) / 32) with q by (Z.div_mod_to_equations; lia).
  replace ((32 * q + 31 - bit) mod 32) with (31 - bit) by (Z.div_mod_to_equations; lia).
  rewrite Hword. simpl. do 2 f_equal. lia.
Qed.

Lemma bit_at_true (p : PixelBits) (row col : Z) :
  0 <= col -> bit_at p row col = Done true ->
  exists masks word,
    read (bits p) row = Done masks /\ read masks (col / 32) = Done word /\
    Z.testbit word (31 - col mod 32) = true.
Proof.
  intros Hcol Hbit. unfold bit_at in Hbit.
  apply bind_Done in Hbit as (masks & Hrow & Hbit).
  apply bind_Done in Hbit as (word & Hword & Hbit). injection Hbit as Hbit.
  rewrite Z.rem_mod_nonneg in Hbit by lia. rewrite Z.quot_div_nonneg in Hword by lia.
  eauto.
Qed.

Lemma tidy_read (p : PixelBits) (row q : Z) (masks : list Z) (word : Z) :
  tidy p -> read (bits p) row = Done masks -> read masks q = Done word ->
  0 <= word /\
  forall b, Z.testbit word b = true -> 0 <= b < 32 /\ 32 * q + 31 - b < width p.
Proof.
  intros Htidy (Hrow0 & Hrow)%read_Done (Hq0 & Hq)%read_Done.
  destruct (Htidy _ _ _ _ Hrow Hq) as (Hpos & Hbits). split; [exact Hpos|].
  intros b Hb. apply Hbits in Hb. lia.
Qed.

Section Collision.

Variables (this other : PixelBits) (location1 location2 : SDL_Rect).

Let l : locals :=
  assign_rows this other (bounding_box this location1) (bounding_box other location2).
Let a : PixelBits := bitmap_a this other location1 location2.
Let b : PixelBits := bitmap_b this other location1 location2.
Let la : SDL_Rect := location_a location1 location2.
Let lb : SDL_Rect := location_b location1 location2.

Hypothesis overlap :
  check_rectangle_collision (bounding_box this location1) (bounding_box other location2)
  = true.
Hypothesis shape1 : well_formed this.
Hypothesis shape2 : well_formed other.
Hypothesis tidy1 : tidy this.
Hypothesis tidy2 : tidy other.

Lemma roles_tidy : tidy a /\ tidy b.
Proof.
  unfold a, b, bitmap_a, bitmap_b. destruct (x location1 >? x location2); auto.
Qed.

(** A row comparison that reports a collision has found a point of the map
    covered by an opaque pixel of each bitmap. *)
Lemma compare_rows_sound (i : Z) :
  0 <= i < h (intersection l) -> compare_rows l i = Done true ->
  exists px py, opaque_at a la px py /\ opaque_at b lb px py.
Proof.
  intros Hi Hrun.
  destruct (assign_rows_geometry this other location1 location2 overlap shape1 shape2)
    as (Hba & Hbb & Hoa & Hha & Hob & Hhb & Hum & Hub & Hused & Hiw & Hn & Hwb & Hflag).
  destruct (assign_rows_alignment this other location1 location2 overlap shape1 shape2)
    as (Hx & Hy & _).
  fold l a b la lb in Hba, Hbb, Hoa, Hha, Hob, Hhb, Hum, Hub, Hused, Hiw, Hn, Hwb, Hflag,
    Hx, Hy.
  destruct roles_tidy as (Hta & Htb).
  unfold compare_rows, deref in Hrun. rewrite Hba, Hbb in Hrun.
  apply bind_Done in Hrun as (bits_a & Hrow_a & Hrun).
  apply bind_Done in Hrun as (bits_b & Hrow_b & Hrun).
  apply for_until_true in Hrun as (j & Hj & Hrun).
  apply compare_masks_Done in Hrun
    as (mask_a & mask_b & next_left & Hmask_a & Hmask_b & Hnext & _ & Hresult).
  destruct (tidy_read a _ _ _ _ Hta Hrow_a Hmask_a) as (Hpos_a & Hbits_a).
  destruct (tidy_read b _ _ _ _ Htb Hrow_b Hmask_b) as (Hpos_b & Hbits_b).
  symmetry in Hresult. apply negb_true_iff, Z.eqb_neq in Hresult.
  destruct (Z.eq_dec (Z.land (Z.shiftr mask_a (nb_unused_bits_row_b l)) mask_b) 0)
    as [Hfirst|Hfirst].
  - (* the collision is with the next mask of row b *)
    rewrite Hfirst, Z.lor_0_l in Hresult.
    destruct (land_nonzero mask_a next_left Hpos_a Hresult) as (b0 & Hb0 & Hseta & Hsetn).
    destruct (has_row_b_additional_mask l).
    2:{ subst next_left. rewrite Z.bits_0 in Hsetn. discriminate. }
    destruct Hnext as (next & Hread_next & Hrange & ->).
    rewrite Z.shiftr_spec in Hsetn by lia.
    destruct (tidy_read b _ _ _ _ Htb Hrow_b Hread_next) as (_ & Hbits_n).
    apply Hbits_a in Hseta as Hcol_a. apply Hbits_n in Hsetn as Hcol_n.
    exists (x la + (32 * j + 31 - b0)), (y la + (offset (rows_a l) + i)).
    unfold opaque_at. split.
    + replace (y la + (offset (rows_a l) + i) - y la) with (offset (rows_a l) + i) by lia.
      replace (x la + (32 * j + 31 - b0) - x la) with (32 * j + 31 - b0) by lia.
      split; [lia|]. split; [lia|].
      rewrite (bit_at_word a _ j b0 bits_a mask_a) by (assumption || lia).
      rewrite Hseta. reflexivity.
    + replace (y la + (offset (rows_a l) + i) - y lb) with (offset (rows_b l) + i) by lia.
      replace (x la + (32 * j + 31 - b0) - x lb)
        with (32 * (j + nb_unused_masks_row_b l + 1) + 31 - (b0 + nb_used_bits_row_b l))
        by lia.
      split; [lia|]. split; [lia|].
      rewrite (bit_at_word b _ _ _ bits_b next) by (assumption || lia).
      rewrite Hsetn. reflexivity.
  - (* the collision is with the mask of row b under mask a *)
    assert (Hshift : 0 <= Z.shiftr mask_a (nb_unused_bits_row_b l))
      by (apply Z.shiftr_nonneg; exact Hpos_a).
    destruct (land_nonzero _ mask_b Hshift Hfirst) as (b0 & Hb0 & Hseta & Hsetb).
    rewrite Z.shiftr_spec in Hseta by lia.
    apply Hbits_a in Hseta as Hcol_a. apply Hbits_b in Hsetb as Hcol_b.
    exists (x la + (32 * j + 31 - (b0 + nb_unused_bits_row_b l))),
           (y la + (offset (rows_a l) + i)).
    unfold opaque_at. split.
    + replace (y la + (offset (rows_a l) + i) - y la) with (offset (rows_a l) + i) by lia.
      replace (x la + (32 * j + 31 - (b0 + nb_unused_bits_row_b l)) - x la)
        with (32 * j + 31 - (b0 + nb_unused_bits_row_b l)) by lia.
      split; [lia|]. split; [lia|].
      rewrite (bit_at_word a _ _ _ bits_a mask_a) by (assumption || lia).
      rewrite Hseta. reflexivity.
    + replace (y la + (offset (rows_a l) + i) - y lb) with (offset (rows_b l) + i) by lia.
      replace (x la + (32 * j + 31 - (b0 + nb_unused_bits_row_b l)) - x lb)
        with (32 * (j + nb_unused_masks_row_b l) + 31 - b0) by lia.
      split; [lia|]. split; [lia|].
      rewrite (bit_at_word b _ _ _ bits_b mask_b) by (assumption || lia).
      rewrite Hsetb. reflexivity.
Qed.

(** A point covered by an opaque pixel of each bitmap lies on a row of the
    intersection. *)
Lemma overlap_row (px py : Z) :
  opaque_at a la px py -> opaque_at b lb px py ->
  0 <= py - y la - offset (rows_a l) < h (intersection l).
Proof.
  intros (Hya & _) (Hyb & _).
  destruct (assign_rows_geometry this other location1 location2 overlap shape1 shape2)
    as (_ & _ & Hoa & _ & Hob & _).
  destruct (assign_rows_alignment this other location1 location2 overlap shape1 shape2)
    as (_ & Hy & Hzero & Hend & _).
  fold l a b la lb in Hoa, Hob, Hy, Hzero, Hend. lia.
Qed.

(** When row b has its additional mask read, or the rows are aligned, the
    comparison of the row of such a point does not answer [false]. *)
Lemma compare_rows_complete (px py : Z) :
  opaque_at a la px py -> opaque_at b lb px py ->
  has_row_b_additional_mask l = true \/ nb_unused_bits_row_b l = 0 ->
  compare_rows l (py - y la - offset (rows_a l)) <> Done false.
Proof.
  intros Ha Hb Hcase Hrun.
  pose proof (overlap_row px py Ha Hb) as Hi.
  destruct Ha as (Hya & Hxa & Hbit_a). destruct Hb as (Hyb & Hxb & Hbit_b).
  destruct (assign_rows_geometry this other location1 location2 overlap shape1 shape2)
    as (Hba & Hbb & Hoa & Hha & Hob & Hhb & Hum & Hub & Hused & Hiw & Hn & Hwb & Hflag).
  destruct (assign_rows_alignment this other location1 location2 overlap shape1 shape2)
    as (Hx & Hy & _ & _ & Hright).
  fold l a b la lb in Hba, Hbb, Hoa, Hha, Hob, Hhb, Hum, Hub, Hused, Hiw, Hn, Hwb, Hflag,
    Hx, Hy, Hright.
  set (i := py - y la - offset (rows_a l)) in *.
  unfold compare_rows, deref in Hrun. rewrite Hba, Hbb in Hrun.
  apply bind_Done in Hrun as (bits_a & Hrow_a & Hrun).
  apply bind_Done in Hrun as (bits_b & Hrow_b & Hrun).
  apply bit_at_true in Hbit_a as (masks_a & word_a & Hra & Hwa & Hseta); [|lia].
  apply bit_at_true in Hbit_b as (masks_b & word_b & Hrb & Hwb' & Hsetb); [|lia].
  replace (py - y la) with (offset (rows_a l) + i) in Hra by (unfold i; lia).
  replace (py - y lb) with (offset (rows_b l) + i) in Hrb by (unfold i; lia).
  rewrite Hrow_a in Hra. injection Hra as <-.
  rewrite Hrow_b in Hrb. injection Hrb as <-.
  set (ca := px - x la) in *.
  assert (Hcb : px - x lb = ca + 32 * nb_unused_masks_row_b l + nb_unused_bits_row_b l)
    by (unfold ca; lia).
  rewrite Hcb in Hwb', Hsetb.
  pose proof (Z.div_mod ca 32 ltac:(lia)) as Hdm.
  pose proof (Z.mod_pos_bound ca 32 ltac:(lia)) as Hm.
  pose proof (for_until_false _ _ _ Hrun (ca / 32) ltac:(lia)) as Hmasks.
  apply compare_masks_Done in Hmasks
    as (mask_a & mask_b & next_left & Hmask_a & Hmask_b & Hnext & _ & Hresult).
  rewrite Hwa in Hmask_a. injection Hmask_a as <-.
  symmetry in Hresult. apply negb_false_iff, Z.eqb_eq, Z.lor_eq_0_iff in Hresult.
  destruct Hresult as (Hfirst & Hsecond).
  destruct (Z_lt_le_dec (31 - ca mod 32) (nb_unused_bits_row_b l)) as [Hspill|Hfit].
  - (* the pixel of row b is in the next mask *)
    destruct Hcase as [Hadd|Haligned]; [|lia].
    rewrite Hadd in Hnext. destruct Hnext as (next & Hread_next & Hrange & ->).
    replace ((ca + 32 * nb_unused_masks_row_b l + nb_unused_bits_row_b l) / 32)
      with (ca / 32 + nb_unused_masks_row_b l + 1) in Hwb'
      by (Z.div_mod_to_equations; lia).
    replace (31 - (ca + 32 * nb_unused_masks_row_b l + nb_unused_bits_row_b l) mod 32)
      with (31 - ca mod 32 + nb_used_bits_row_b l) in Hsetb
      by (Z.div_mod_to_equations; lia).
    rewrite Hread_next in Hwb'. injection Hwb' as <-.
    apply (land_zero _ _ (31 - ca mod 32) Hsecond); [exact Hseta|].
    rewrite Z.shiftr_spec by lia. exact Hsetb.
  - (* the pixel of row b is in the mask under mask a *)
    replace ((ca + 32 * nb_unused_masks_row_b l + nb_unused_bits_row_b l) / 32)
      with (ca / 32 + nb_unused_masks_row_b l) in Hwb'
      by (Z.div_mod_to_equations; lia).
    replace (31 - (ca + 32 * nb_unused_masks_row_b l + nb_unused_bits_row_b l) mod 32)
      with (31 - ca mod 32 - nb_unused_bits_row_b l) in Hsetb
      by (Z.div_mod_to_equations; lia).
    rewrite Hmask_b in Hwb'. injection Hwb' as <-.
    apply (land_zero _ _ (31 - ca mod 32 - nb_unused_bits_row_b l) Hfirst);
      [|exact Hsetb].
    rewrite Z.shiftr_spec by lia.
    replace (31 - ca mod 32 - nb_unused_bits_row_b l + nb_unused_bits_row_b l)
      with (31 - ca mod 32) by lia.
    exact Hseta.
Qed.

End Collision.

Lemma overlapping_roles (this other : PixelBits) (location1 location2 : SDL_Rect) :
  overlapping this location1 other location2 <->
  exists px py,
    opaque_at (bitmap_a this other location1 location2)
              (location_a location1 location2) px py /\
    opaque_at (bitmap_b this other location1 location2)
              (location_b location1 location2) px py.
Proof.
  unfold overlapping, bitmap_a, bitmap_b, location_a, location_b.
  destruct (x location1 >? x location2); [tauto|].
  split; intros (px & py & H1 & H2); exists px, py; tauto.
Qed.

Lemma overlapping_bounding_boxes (this other : PixelBits) (location1 location2 : SDL_Rect) :
  overlapping this location1 other location2 ->
  check_rectangle_collision (bounding_box this location1) (bounding_box other location2)
  = true.
Proof.
  intros (px & py & (Hy1 & Hx1 & _) & (Hy2 & Hx2 & _)).
  apply check_rectangle_collision_true. simpl. lia.
Qed.


(** The collision test misses no collision when it reads the additional mask
    of row b or when the rows are aligned: it does not answer [false] if some
    point of the map is covered by an opaque pixel of each bitmap. *)
Theorem check_collision_complete (this other : PixelBits) (location1 location2 : SDL_Rect) :
  well_formed this -> well_formed other ->
  overlapping this location1 other location2 ->
  let l := assign_rows this other
             (bounding_box this location1) (bounding_box other location2) in
  has_row_b_additional_mask l = true \/ nb_unused_bits_row_b l = 0 ->
  check_collision this other location1 location2 <> Done false.
Proof.
  intros Hs1 Hs2 Hover l Hcase Hrun. subst l.
  pose proof (overlapping_bounding_boxes _ _ _ _ Hover) as Hoverlap.
  apply overlapping_roles in Hover as (px & py & Ha & Hb).
  unfold check_collision in Hrun. rewrite Hoverlap in Hrun. simpl in Hrun.
  pose proof (overlap_row this other location1 location2 Hoverlap Hs1 Hs2 px py Ha Hb)
    as Hi.
  apply (compare_rows_complete this other location1 location2 Hoverlap Hs1 Hs2
                               px py Ha Hb Hcase).
  apply (for_until_false _ _ _ Hrun). lia.
Qed.

Lemma MAX_comm (u v : Z) : MAX u v = MAX v u.
Proof.
  unfold MAX. destruct (Z.gtb_spec u v); destruct (Z.gtb_spec v u); lia.
Qed.

Lemma MIN_comm (u v : Z) : MIN u v = MIN v u.
Proof.
  unfold MIN. destruct (Z.ltb_spec u v); destruct (Z.ltb_spec v u); lia.
Qed.

Lemma check_rectangle_collision_comm (rectangle1 rectangle2 : SDL_Rect) :
  check_rectangle_collision rectangle1 rectangle2
  = check_rectangle_collision rectangle2 rectangle1.
Proof.
  unfold check_rectangle_collision.
  destruct (x rectangle2 <? x rectangle1 + w rectangle1);
    destruct (x rectangle1 <? x rectangle2 + w rectangle2);
    destruct (y rectangle2 <? y rectangle1 + h rectangle1);
    destruct (y rectangle1 <? y rectangle2 + h rectangle2); reflexivity.
Qed.

(** When the two bounding boxes do not start at the same [x], the two
    bitmaps get the same roles whichever the test is called on. *)
Lemma assign_rows_swap (this other : PixelBits) (bounding_box1 bounding_box2 : SDL_Rect) :
  x bounding_box1 <> x bounding_box2 ->
  assign_rows other this bounding_box2 bounding_box1
  = assign_rows this other bounding_box1 bounding_box2.
Proof.
  intros Hx. unfold assign_rows.
  rewrite (MAX_comm (x bounding_box2)), (MAX_comm (y bounding_box2)).
  rewrite (MIN_comm (x bounding_box2 + w bounding_box2)),
    (MIN_comm (y bounding_box2 + h bounding_box2)).
  simpl.
  destruct (Z.gtb_spec (x bounding_box1) (x bounding_box2));
    destruct (Z.gtb_spec (x bounding_box2) (x bounding_box1)); try lia; reflexivity.
Qed.

(** The collision test gives the same outcome whichever of the two bitmaps
    it is called on, when their locations differ in [x]. *)
Theorem check_collision_symmetric_apart
    (this other : PixelBits) (location1 location2 : SDL_Rect) :
  x location1 <> x location2 ->
  check_collision this other location1 location2
  = check_collision other this location2 location1.
Proof.
  intros Hx. unfold check_collision.
  rewrite (check_rectangle_collision_comm (bounding_box other location2)).
  rewrite (assign_rows_swap this other) by exact Hx. reflexivity.
Qed.

(** ** Concrete bitmaps *)

(** A location of a bitmap on the map: only [x] and [y] are specified. *)
Definition at_position (px py : Z) : SDL_Rect := {| x := px; y := py; w := 0; h := 0 |}.

(** An 8-bit surface of one row whose transparent colour is 0, and the image
    that covers it. *)
Definition strip (row_pixels : list Z) : SDL_Surface :=
  {| format := {| BitsPerPixel := 8; colorkey := 0 |};
     surface_w := Z.of_nat (length row_pixels);
     pixels := row_pixels |}.

Definition whole_strip (row_pixels : list Z) : SDL_Rect :=
  {| x := 0; y := 0; w := Z.of_nat (length row_pixels); h := 1 |}.

(** Storage that was last used for something else. *)
Definition stale (i k : Z) : Z := 4294967295.

(** Two pixels, the second one opaque. *)
Definition narrow_pixels : list Z := [0; 1].
Definition narrow : PixelBits :=
  {| width := 2; height := 1; nb_integers_per_row := 1;
     bits := [[1073741824 (* 0x40000000 *)]] |}.

(** 64 pixels, only pixel 32 opaque. *)
Definition wide_pixels : list Z := replicate 32 0 ++ [1] ++ replicate 31 0.
Definition wide : PixelBits :=
  {| width := 64; height := 1; nb_integers_per_row := 2;
     bits := [[0; 2147483648 (* 0x80000000 *)]] |}.

(** 96 pixels, only pixel 32 opaque. *)
Definition long_pixels : list Z := replicate 32 0 ++ [1] ++ replicate 63 0.
Definition long : PixelBits :=
  {| width := 96; height := 1; nb_integers_per_row := 3;
     bits := [[0; 2147483648; 0]] |}.

(** A single opaque pixel. *)
Definition dot_pixels : list Z := [1].
Definition dot : PixelBits :=
  {| width := 1; height := 1; nb_integers_per_row := 1; bits := [[2147483648]] |}.

Lemma examples_constructed :
  PixelBits_new stale (strip narrow_pixels) (whole_strip narrow_pixels) = Done narrow /\
  PixelBits_new stale (strip wide_pixels) (whole_strip wide_pixels) = Done wide /\
  PixelBits_new stale (strip long_pixels) (whole_strip long_pixels) = Done long /\
  PixelBits_new stale (strip dot_pixels) (whole_strip dot_pixels) = Done dot.
Proof. repeat split; vm_compute; reflexivity. Qed.

Lemma examples_well_formed :
  well_formed narrow /\ well_formed wide /\ well_formed long /\ well_formed dot.
Proof.
  destruct examples_constructed as (Hn & Hw & Hl & Hd).
  repeat split;
    (eapply PixelBits_new_well_formed; [| | eassumption]; simpl; lia).
Qed.

(** ** Where the collision test departs from its documentation *)

(** C1, at a failing input: [narrow] at [(31, 0)] and [wide] at [(0, 0)] both
    have an opaque pixel on the point [(32, 0)] of the map, and the collision
    test answers [false].  Row b has two masks and the flag
    [has_row_b_additional_mask] is false, so its second mask is never read. *)
Theorem check_collision_misses_overlap :
  overlapping narrow (at_position 31 0) wide (at_position 0 0) /\
  check_collision narrow wide (at_position 31 0) (at_position 0 0) = Done false.
Proof.
  split; [|vm_compute; reflexivity].
  exists 32, 0. unfold opaque_at. simpl.
  repeat split; try lia; vm_compute; reflexivity.
Qed.

(** C2, at a failing input: for [narrow] at [(31, 0)] and [wide] at [(0, 0)],
    row b is the row of [wide], it has the mask of index
    [nb_masks_per_row_a + nb_unused_masks_row_b], and the flag is false. *)
Theorem has_row_b_additional_mask_off_by_one :
  let l := assign_rows narrow wide (bounding_box narrow (at_position 31 0))
             (bounding_box wide (at_position 0 0)) in
  base (rows_b l) = bits wide /\
  nb_masks_per_row_a l + nb_unused_masks_row_b l + 1 <= nb_integers_per_row wide /\
  has_row_b_additional_mask l = false.
Proof. vm_compute. repeat split. discriminate. Qed.

(** C3, at a failing input: [long] and [dot] placed at the same point are
    aligned ([nb_unused_bits_row_b] is 0) and the flag is true; the test then
    shifts the second mask of [long] by 32 bits. *)
Theorem aligned_rows_shift_by_32 :
  let l := assign_rows long dot (bounding_box long (at_position 0 0))
             (bounding_box dot (at_position 0 0)) in
  nb_unused_bits_row_b l = 0 /\ has_row_b_additional_mask l = true /\
  nb_used_bits_row_b l = 32 /\
  check_collision long dot (at_position 0 0) (at_position 0 0) = Abort UndefinedShift.
Proof. vm_compute. repeat split. Qed.

(** C5, at a failing input: with [long] and [dot] at the same point, the test
    called on [long] runs into the shift by 32 bits, and called on [dot] it
    answers [false]. *)
Theorem check_collision_not_symmetric :
  check_collision long dot (at_position 0 0) (at_position 0 0) = Abort UndefinedShift /\
  check_collision dot long (at_position 0 0) (at_position 0 0) = Done false.
Proof. split; vm_compute; reflexivity. Qed.

(** ** The confirmed properties at concrete inputs *)

Lemma PixelBits_new_bits_witness :
  exists p,
    PixelBits_new stale (strip narrow_pixels) (whole_strip narrow_pixels) = Done p /\
    bit_at p 0 0 = Done false /\ bit_at p 0 1 = Done true /\ bit_at p 0 2 = Done false.
Proof.
  destruct (PixelBits_new_bits stale (strip narrow_pixels) (whole_strip narrow_pixels))
    as [Hbuilt Hbits]; [simpl; lia | simpl; lia |].
  destruct Hbuilt as [p Hp]; [reflexivity | intros row col; simpl; lia |].
  exists p. split; [exact Hp|].
  destruct (Hbits p Hp 0 0) as [H0 _]; [simpl; lia|].
  destruct (Hbits p Hp 0 1) as [H1 _]; [simpl; lia|].
  destruct (Hbits p Hp 0 2) as [_ H2]; [simpl; lia|].
  destruct H0 as (pixel0 & Hs0 & Hb0); [simpl; lia|].
  destruct H1 as (pixel1 & Hs1 & Hb1); [simpl; lia|].
  injection Hs0 as <-. injection Hs1 as <-.
  split; [exact Hb0|]. split; [exact Hb1|].
  apply H2. vm_compute in Hp. injection Hp as <-. simpl. lia.
Defined.

Lemma check_rectangle_collision_spec_witness :
  check_rectangle_collision {| x := 0; y := 0; w := 10; h := 10 |}
                            {| x := 10; y := 0; w := 10; h := 10 |} = false.
Proof.
  apply (check_rectangle_collision_spec {| x := 0; y := 0; w := 10; h := 10 |}
                                        {| x := 10; y := 0; w := 10; h := 10 |}).
  left. reflexivity.
Defined.

Lemma check_collision_bounding_boxes_apart_witness :
  check_collision
    {| width := 64; height := 1; nb_integers_per_row := 2; bits := [] |}
    {| width := 2; height := 1; nb_integers_per_row := 1; bits := [[7; 7; 7]; [7]] |}
    (at_position 0 0) (at_position 64 0)
  = Done false.
Proof.
  apply (check_collision_bounding_boxes_apart wide narrow (at_position 0 0)
                                              (at_position 64 0)).
  reflexivity.
Defined.

Lemma PixelBits_new_nb_integers_per_row_witness :
  width wide = 64 /\
  32 * (nb_integers_per_row wide - 1) < width wide <= 32 * nb_integers_per_row wide /\
  nb_integers_per_row wide = (width wide + 31) / 32 /\
  (width wide mod 32 = 0 -> nb_integers_per_row wide = width wide / 32) /\
  (width wide = 1 -> nb_integers_per_row wide = 1).
Proof.
  apply (PixelBits_new_nb_integers_per_row stale (strip wide_pixels)
                                           (whole_strip wide_pixels) wide).
  - simpl. lia.
  - vm_compute. reflexivity.
Defined.

Lemma PixelBits_new_format_witness :
  PixelBits_new stale
    {| format := {| BitsPerPixel := 32; colorkey := 0 |}; surface_w := 1; pixels := [1] |}
    (whole_strip dot_pixels)
  = Abort (UnsupportedFormatError "This surface should have an 8-bit pixel format") /\
  exists p, PixelBits_new stale (strip dot_pixels) (whole_strip dot_pixels) = Done p.
Proof.
  split.
  - apply (PixelBits_new_format stale
             {| format := {| BitsPerPixel := 32; colorkey := 0 |};
                surface_w := 1; pixels := [1] |} (whole_strip dot_pixels)).
    simpl. discriminate.
  - apply (PixelBits_new_format stale (strip dot_pixels) (whole_strip dot_pixels)).
    + reflexivity.
    + simpl. lia.
    + intros row col. simpl. lia.
Defined.

Lemma check_collision_accesses_in_bounds_witness :
  check_collision narrow wide (at_position 31 0) (at_position 0 0) <> Abort OutOfBounds.
Proof.
  apply (check_collision_accesses_in_bounds narrow wide (at_position 31 0)
                                            (at_position 0 0)).
  - apply examples_well_formed.
  - apply examples_well_formed.
  - reflexivity.
Defined.

Lemma examples_tidy : tidy long /\ tidy dot.
Proof.
  destruct examples_constructed as (_ & _ & Hl & Hd).
  split; (eapply PixelBits_new_tidy; [| | eassumption]; simpl; lia).
Qed.


Lemma check_collision_complete_witness :
  check_collision dot long (at_position 32 0) (at_position 0 0) <> Done false.
Proof.
  apply (check_collision_complete dot long (at_position 32 0) (at_position 0 0)).
  - apply examples_well_formed.
  - apply examples_well_formed.
  - exists 32, 0. unfold opaque_at. simpl.
    repeat split; try lia; vm_compute; reflexivity.
  - right. reflexivity.
Defined.

Lemma check_collision_symmetric_apart_witness :
  check_collision narrow wide (at_position 31 0) (at_position 0 0)
  = check_collision wide narrow (at_position 0 0) (at_position 31 0).
Proof.
  apply (check_collision_symmetric_apart narrow wide (at_position 31 0) (at_position 0 0)).
  simpl. lia.
Defined.

(** * Further properties of the class *)

(** ** What the constructor needs and what it builds *)

(** The constructor builds bitmaps of the shape that the collision test
    relies on: [height] rows of [nb_integers_per_row] masks, each of them a
    [Uint32] with no bit set past the width. *)
Theorem PixelBits_new_shape (uninitialized : Z -> Z -> Z)
    (surface : SDL_Surface) (image_position : SDL_Rect) (p : PixelBits) :
  0 < w image_position -> 0 < h image_position ->
  PixelBits_new uninitialized surface image_position = Done p ->
  well_formed p /\ tidy p.
Proof.
  intros Hw Hh Hrun. split.
  - apply (PixelBits_new_well_formed uninitialized surface image_position); assumption.
  - apply (PixelBits_new_tidy uninitialized surface image_position); assumption.
Qed.

Lemma PixelBits_new_reads_image (uninitialized : Z -> Z -> Z)
    (surface : SDL_Surface) (image_position : SDL_Rect) (p : PixelBits) :
  0 <= w image_position ->
  PixelBits_new uninitialized surface image_position = Done p ->
  image_in_surface surface image_position.
Proof.
  intros Hw Hrun row col Hrow Hcol.
  apply PixelBits_new_Done in Hrun as (_ & _ & _ & _ & _ & Hrows); [|exact Hw].
  destruct (Hrows row Hrow) as (masks & _ & _ & Hread & _).
  destruct (Hread col Hcol) as (pixel & Hpixel).
  apply read_Done_bounds in Hpixel. exact Hpixel.
Qed.

(** On an 8-bit surface the constructor completes exactly when the image
    lies within the pixels of the surface: otherwise it reads a pixel outside
    of them. *)
Theorem PixelBits_new_completes_iff (uninitialized : Z -> Z -> Z)
    (surface : SDL_Surface) (image_position : SDL_Rect) :
  BitsPerPixel (format surface) = 8 -> 0 <= w image_position ->
  ((exists p, PixelBits_new uninitialized surface image_position = Done p) <->
   image_in_surface surface image_position).
Proof.
  intros Hfmt Hw. split.
  - intros (p & Hrun).
    apply (PixelBits_new_reads_image uninitialized surface image_position p); assumption.
  - apply PixelBits_new_completes; assumption.
Qed.

(** Two rows of masks that pack the same pixels are equal. *)
Lemma row_packed_unique (surface : SDL_Surface) (image_position : SDL_Rect)
    (start : Z) (masks1 masks2 : list Z) :
  row_packed surface image_position start masks1 ->
  row_packed surface image_position start masks2 -> masks1 = masks2.
Proof.
  intros (Hlen1 & _ & Hwords1) (Hlen2 & _ & Hwords2).
  apply list_eq. intros q.
  destruct (Nat.lt_ge_cases q (length masks1)) as [Hq|Hq].
  - destruct (Hwords1 (Z.of_nat q)) as (word1 & Hw1 & Hbits1); [lia|].
    destruct (Hwords2 (Z.of_nat q)) as (word2 & Hw2 & Hbits2); [lia|].
    rewrite Nat2Z.id in Hw1, Hw2. rewrite Hw1, Hw2. f_equal.
    apply Z.bits_inj'. intros n _. rewrite Hbits1, Hbits2. reflexivity.
  - rewrite (lookup_ge_None_2 masks1), (lookup_ge_None_2 masks2) by lia. reflexivity.
Qed.

(** The bitmap does not depend on what the freshly allocated rows held:
    every mask is set to 0 before its first use. *)
Theorem PixelBits_new_ignores_uninitialized (uninitialized1 uninitialized2 : Z -> Z -> Z)
    (surface : SDL_Surface) (image_position : SDL_Rect) (p : PixelBits) :
  0 <= w image_position ->
  PixelBits_new uninitialized1 surface image_position = Done p ->
  PixelBits_new uninitialized2 surface image_position = Done p.
Proof.
  intros Hw Hrun1.
  pose proof (PixelBits_new_reads_image _ _ _ _ Hw Hrun1) as Hin.
  apply PixelBits_new_Done in Hrun1 as (Hfmt & Hwidth1 & Hheight1 & Hnb1 & Hlen1 & Hrows1);
    [|exact Hw].
  destruct (PixelBits_new_completes uninitialized2 surface image_position Hfmt Hw Hin)
    as (p2 & Hrun2).
  rewrite Hrun2. f_equal.
  apply PixelBits_new_Done in Hrun2 as (_ & Hwidth2 & Hheight2 & Hnb2 & Hlen2 & Hrows2);
    [|exact Hw].
  destruct p as [width1 height1 nb1 bits1], p2 as [width2 height2 nb2 bits2].
  simpl in *. subst. f_equal.
  apply list_eq. intros r.
  destruct (Nat.lt_ge_cases r (length bits1)) as [Hr|Hr].
  - destruct (Hrows1 (Z.of_nat r)) as (masks1 & Hm1 & Hp1); [lia|].
    destruct (Hrows2 (Z.of_nat r)) as (masks2 & Hm2 & Hp2); [lia|].
    rewrite Nat2Z.id in Hm1, Hm2. rewrite Hm1, Hm2. f_equal.
    apply (row_packed_unique surface image_position _ _ _ Hp2 Hp1).
  - rewrite (lookup_ge_None_2 bits1), (lookup_ge_None_2 bits2) by lia. reflexivity.
Qed.

(** ** The constructor and the rest of the surface *)

Lemma row_packed_agree (surface1 surface2 : SDL_Surface)
    (image_position1 image_position2 : SDL_Rect) (start1 start2 : Z)
    (masks1 masks2 : list Z) :
  w image_position2 = w image_position1 ->
  to_Uint8 (colorkey (format surface2)) = to_Uint8 (colorkey (format surface1)) ->
  (forall col, 0 <= col < w image_position1 ->
               read (pixels surface2) (start2 + col) = read (pixels surface1) (start1 + col)) ->
  row_packed surface1 image_position1 start1 masks1 ->
  row_packed surface2 image_position2 start2 masks2 ->
  masks2 = masks1.
Proof.
  intros Hw Hkey Hpixels (Hlen1 & _ & Hwords1) (Hlen2 & _ & Hwords2).
  rewrite Hw in Hlen2, Hwords2. rewrite Hkey in Hwords2.
  apply list_eq. intros q.
  destruct (Nat.lt_ge_cases q (length masks1)) as [Hq|Hq].
  - destruct (Hwords1 (Z.of_nat q)) as (word1 & Hw1 & Hbits1); [lia|].
    destruct (Hwords2 (Z.of_nat q)) as (word2 & Hw2 & Hbits2); [lia|].
    rewrite Nat2Z.id in Hw1, Hw2. rewrite Hw1, Hw2. f_equal.
    apply Z.bits_inj'. intros n _. rewrite Hbits1, Hbits2. unfold mask_bit.
    destruct (Z.leb_spec 0 n); destruct (Z.ltb_spec n 32);
      destruct (Z.ltb_spec (32 * Z.of_nat q + 31 - n) (w image_position1));
      simpl; try reflexivity.
    unfold source_opaque. rewrite Hpixels by lia. reflexivity.
  - rewrite (lookup_ge_None_2 masks1), (lookup_ge_None_2 masks2) by lia. reflexivity.
Qed.

(** The bitmap depends on the surface through the pixels of the image only:
    two images of the same size with the same pixels, on surfaces with the
    same transparent colour, give the same bitmap, whatever the widths of the
    two surfaces and the places of the images on them. *)
Theorem PixelBits_new_depends_on_image (uninitialized1 uninitialized2 : Z -> Z -> Z)
    (surface1 surface2 : SDL_Surface) (image_position1 image_position2 : SDL_Rect)
    (p : PixelBits) :
  0 <= w image_position1 ->
  w image_position2 = w image_position1 -> h image_position2 = h image_position1 ->
  BitsPerPixel (format surface2) = 8 ->
  to_Uint8 (colorkey (format surface2)) = to_Uint8 (colorkey (format surface1)) ->
  (forall row col,
     0 <= row < h image_position1 -> 0 <= col < w image_position1 ->
     source_pixel surface2 image_position2 row col
     = source_pixel surface1 image_position1 row col) ->
  PixelBits_new uninitialized1 surface1 image_position1 = Done p ->
  PixelBits_new uninitialized2 surface2 image_position2 = Done p.
Proof.
  intros Hw Hw2 Hh2 Hfmt2 Hkey Hsame Hrun1.
  pose proof (PixelBits_new_reads_image _ _ _ _ Hw Hrun1) as Hin1.
  assert (Hin2 : image_in_surface surface2 image_position2).
  { intros row col Hrow Hcol. rewrite Hh2 in Hrow. rewrite Hw2 in Hcol.
    destruct (read_in_bounds (pixels surface1) _ (Hin1 row col Hrow Hcol)) as (v & Hv).
    specialize (Hsame row col Hrow Hcol). unfold source_pixel in Hsame.
    rewrite Hv in Hsame. apply read_Done_bounds in Hsame. exact Hsame. }
  apply PixelBits_new_Done in Hrun1 as (_ & Hwidth1 & Hheight1 & Hnb1 & Hlen1 & Hrows1);
    [|exact Hw].
  destruct (PixelBits_new_completes uninitialized2 surface2 image_position2 Hfmt2
              ltac:(lia) Hin2) as (p2 & Hrun2).
  rewrite Hrun2. f_equal.
  apply PixelBits_new_Done in Hrun2 as (_ & Hwidth2 & Hheight2 & Hnb2 & Hlen2 & Hrows2);
    [|lia].
  destruct p as [width1 height1 nb1 bits1], p2 as [width2 height2 nb2 bits2].
  simpl in *. subst. rewrite Hw2, Hh2 in *. f_equal.
  apply list_eq. intros r.
  destruct (Nat.lt_ge_cases r (length bits1)) as [Hr|Hr].
  - destruct (Hrows1 (Z.of_nat r)) as (masks1 & Hm1 & Hp1); [lia|].
    destruct (Hrows2 (Z.of_nat r)) as (masks2 & Hm2 & Hp2); [lia|].
    rewrite Nat2Z.id in Hm1, Hm2. rewrite Hm1, Hm2. f_equal.
    eapply (row_packed_agree surface1 surface2 image_position1 image_position2);
      [exact Hw2 | exact Hkey | | exact Hp1 | exact Hp2].
    intros col Hcol. apply (Hsame (Z.of_nat r) col); lia.
  - rewrite (lookup_ge_None_2 bits1), (lookup_ge_None_2 bits2) by lia. reflexivity.
Qed.

(** ** When the collision test is defined *)

Lemma for_until_Done (body : Z -> outcome bool) :
  forall (n : nat) (i : Z) (collision : bool),
    (forall j, i <= j < i + Z.of_nat n -> exists r, body j = Done r) ->
    exists r, for_until n i body collision = Done r.
Proof.
  induction n as [|n IH]; intros i collision Hbody; simpl; [eauto|].
  destruct collision; [eauto|].
  destruct (Hbody i) as (r & Hr); [lia|]. rewrite Hr. simpl.
  apply IH. intros j Hj. apply Hbody. lia.
Qed.

Lemma shr_defined (v n : Z) : 0 <= n < 32 -> shr v n = Done (Z.shiftr v n).
Proof.
  intros Hn. unfold shr.
  destruct (Z.leb_spec 0 n); destruct (Z.ltb_spec n 32); try lia. reflexivity.
Qed.

Lemma shr_by_32 (v : Z) : shr v 32 = Abort UndefinedShift.
Proof. reflexivity. Qed.

Section Definedness.

Variables (this other : PixelBits) (location1 location2 : SDL_Rect).

Let l : locals :=
  assign_rows this other (bounding_box this location1) (bounding_box other location2).
Let a : PixelBits := bitmap_a this other location1 location2.
Let b : PixelBits := bitmap_b this other location1 location2.

Hypothesis overlap :
  check_rectangle_collision (bounding_box this location1) (bounding_box other location2)
  = true.
Hypothesis shape1 : well_formed this.
Hypothesis shape2 : well_formed other.

(** The intersection of two overlapping bounding boxes has rows and masks. *)
Lemma intersection_not_empty :
  0 < h (intersection l) /\ 0 < nb_masks_per_row_a l.
Proof.
  destruct (assign_rows_geometry this other location1 location2 overlap shape1 shape2)
    as (_ & _ & Hoa & _ & Hob & _ & _ & _ & _ & Hiw & Hn & _).
  destruct (assign_rows_alignment this other location1 location2 overlap shape1 shape2)
    as (_ & Hy & Hzero & Hend & _).
  fold l a b in Hoa, Hob, Hiw, Hn, Hy, Hzero, Hend.
  apply check_rectangle_collision_true in overlap. simpl in overlap.
  destruct shape1 as (_ & Hh1 & _). destruct shape2 as (_ & Hh2 & _).
  assert (Hha : 0 < height a /\ 0 < height b).
  { unfold a, b, bitmap_a, bitmap_b. destruct (x location1 >? x location2); auto. }
  split; [|lia].
  unfold location_a, location_b in Hy.
  unfold a, b, bitmap_a, bitmap_b in Hend, Hha.
  destruct (x location1 >? x location2); lia.
Qed.

(** The rows and masks that an iteration reads. *)
Lemma rows_read (i : Z) :
  0 <= i < h (intersection l) ->
  exists bits_a bits_b,
    deref (rows_a l) i = Done bits_a /\ deref (rows_b l) i = Done bits_b /\
    length bits_a = Z.to_nat (nb_integers_per_row a) /\
    length bits_b = Z.to_nat (nb_integers_per_row b).
Proof.
  intros Hi.
  destruct (assign_rows_geometry this other location1 location2 overlap shape1 shape2)
    as (Hba & Hbb & _).
  fold l a b in Hba, Hbb.
  destruct (roles_well_formed this other location1 location2 shape1 shape2)
    as ((_ & _ & _ & Hla & Hma) & (_ & _ & _ & Hlb & Hmb)).
  fold a b in Hla, Hma, Hlb, Hmb.
  destruct intersection_not_empty as (_ & Hn).
  destruct (index_bounds this other location1 location2 overlap shape1 shape2 i 0)
    as (Hra & Hrb & _); [exact Hi | fold l; lia |].
  fold l a b in Hra, Hrb.
  unfold deref. rewrite Hba, Hbb.
  destruct (read_in_bounds (bits a) (offset (rows_a l) + i)) as (bits_a & Ha); [lia|].
  destruct (read_in_bounds (bits b) (offset (rows_b l) + i)) as (bits_b & Hb); [lia|].
  exists bits_a, bits_b. repeat split; try assumption.
  - apply read_Done in Ha as (_ & Ha). apply (Hma _ _ Ha).
  - apply read_Done in Hb as (_ & Hb). apply (Hmb _ _ Hb).
Qed.

Lemma compare_rows_defined (i : Z) :
  0 <= i < h (intersection l) ->
  has_row_b_additional_mask l = false \/ nb_unused_bits_row_b l <> 0 ->
  exists r, compare_rows l i = Done r.
Proof.
  intros Hi Hcase. destruct (rows_read i Hi) as (bits_a & bits_b & Ha & Hb & Hla & Hlb).
  destruct (assign_rows_geometry this other location1 location2 overlap shape1 shape2)
    as (_ & _ & _ & _ & _ & _ & _ & Hub & Hused & _).
  fold l in Hub, Hused.
  unfold compare_rows. rewrite Ha, Hb. simpl.
  apply for_until_Done. intros j Hj.
  destruct (index_bounds this other location1 location2 overlap shape1 shape2 i j)
    as (_ & _ & Hja & Hjb & Hjb'); [exact Hi | fold l; lia |].
  fold l a b in Hja, Hjb, Hjb'.
  unfold compare_masks.
  destruct (read_in_bounds bits_a j) as (mask_a & Hmask_a); [lia|].
  destruct (read_in_bounds bits_b (j + nb_unused_masks_row_b l)) as (mask_b & Hmask_b);
    [lia|].
  rewrite Hmask_a, Hmask_b. simpl.
  destruct (has_row_b_additional_mask l) eqn:Hflag.
  - destruct (read_in_bounds bits_b (j + nb_unused_masks_row_b l + 1))
      as (next & Hnext); [specialize (Hjb' eq_refl); lia|].
    rewrite Hnext. simpl.
    rewrite (shr_defined next) by (destruct Hcase; [discriminate | lia]). simpl.
    rewrite (shr_defined mask_a) by lia. simpl. eauto.
  - simpl. rewrite (shr_defined mask_a) by lia. simpl. eauto.
Qed.

Lemma compare_rows_undefined :
  has_row_b_additional_mask l = true -> nb_unused_bits_row_b l = 0 ->
  compare_rows l 0 = Abort UndefinedShift.
Proof.
  intros Hflag Haligned. destruct intersection_not_empty as (Hh & Hn).
  destruct (rows_read 0 ltac:(lia)) as (bits_a & bits_b & Ha & Hb & Hla & Hlb).
  destruct (assign_rows_geometry this other location1 location2 overlap shape1 shape2)
    as (_ & _ & _ & _ & _ & _ & _ & _ & Hused & _).
  fold l in Hused.
  unfold compare_rows. rewrite Ha, Hb. simpl.
  destruct (Z.to_nat (nb_masks_per_row_a l)) as [|n] eqn:En; [lia|]. simpl.
  destruct (index_bounds this other location1 location2 overlap shape1 shape2 0 0)
    as (_ & _ & Hja & Hjb & Hjb'); [fold l; lia | fold l; lia |].
  fold l a b in Hja, Hjb, Hjb'.
  unfold compare_masks. rewrite Hflag.
  destruct (read_in_bounds bits_a 0) as (mask_a & Hmask_a); [lia|].
  destruct (read_in_bounds bits_b (0 + nb_unused_masks_row_b l)) as (mask_b & Hmask_b);
    [lia|].
  destruct (read_in_bounds bits_b (0 + nb_unused_masks_row_b l + 1))
    as (next & Hnext); [specialize (Hjb' Hflag); lia|].
  rewrite Hmask_a, Hmask_b. simpl. rewrite Hnext. simpl.
  rewrite Hused, Haligned. reflexivity.
Qed.

End Definedness.

(** On two well-formed bitmaps whose bounding boxes overlap, the collision
    test runs into the shift of a mask by 32 bits exactly when the rows are
    aligned while [has_row_b_additional_mask] is true; in every other case it
    returns a boolean. *)
Theorem check_collision_defined_iff
    (this other : PixelBits) (location1 location2 : SDL_Rect) :
  well_formed this -> well_formed other ->
  check_rectangle_collision (bounding_box this location1) (bounding_box other location2)
  = true ->
  let l := assign_rows this other
             (bounding_box this location1) (bounding_box other location2) in
  (has_row_b_additional_mask l = true /\ nb_unused_bits_row_b l = 0 ->
   check_collision this other location1 location2 = Abort UndefinedShift) /\
  (has_row_b_additional_mask l = false \/ nb_unused_bits_row_b l <> 0 ->
   exists r, check_collision this other location1 location2 = Done r).
Proof.
  intros Hs1 Hs2 Hoverlap l. unfold check_collision. rewrite Hoverlap. simpl.
  fold l. split.
  - intros (Hflag & Haligned).
    destruct (intersection_not_empty this other location1 location2 Hoverlap Hs1 Hs2)
      as (Hh & _). fold l in Hh.
    destruct (Z.to_nat (h (intersection l))) as [|n] eqn:En; [lia|]. simpl.
    unfold l. rewrite compare_rows_undefined by assumption. reflexivity.
  - intros Hcase. apply for_until_Done. intros i Hi.
    apply compare_rows_defined; try assumption. fold l. lia.
Qed.

(** ** Symmetry of the collision test *)

Lemma overlapping_comm (p1 p2 : PixelBits) (location1 location2 : SDL_Rect) :
  overlapping p1 location1 p2 location2 -> overlapping p2 location2 p1 location1.
Proof. intros (px & py & H1 & H2). exists px, py. auto. Qed.

(** Bounding boxes that start at the same [x] give aligned rows. *)
Lemma same_x_aligned (this other : PixelBits) (bounding_box1 bounding_box2 : SDL_Rect) :
  x bounding_box1 = x bounding_box2 ->
  nb_unused_bits_row_b (assign_rows this other bounding_box1 bounding_box2) = 0.
Proof.
  intros Hx. unfold assign_rows, MAX. simpl. rewrite Hx.
  destruct (Z.gtb_spec (x bounding_box2) (x bounding_box2)); [lia|]. simpl.
  rewrite Z.sub_diag. reflexivity.
Qed.

(** When the rows are aligned or the additional mask of row b is read, a
    boolean answer of the collision test tells whether some point of the map
    is covered by an opaque pixel of each bitmap. *)
Lemma check_collision_decides (this other : PixelBits) (location1 location2 : SDL_Rect)
    (r : bool) :
  well_formed this -> well_formed other -> tidy this -> tidy other ->
  (let l := assign_rows this other
              (bounding_box this location1) (bounding_box other location2) in
   has_row_b_additional_mask l = true \/ nb_unused_bits_row_b l = 0) ->
  check_collision this other location1 location2 = Done r ->
  (r = true <-> overlapping this location1 other location2).
Proof.
  intros Hs1 Hs2 Ht1 Ht2 Hcase Hrun. simpl in Hcase. unfold check_collision in Hrun.
  destruct (check_rectangle_collision (bounding_box this location1)
                                      (bounding_box other location2)) eqn:Hoverlap;
    simpl in Hrun.
  - destruct r; split; try discriminate; auto.
    + intros _. apply for_until_true in Hrun as (i & Hi & Hrow).
      apply overlapping_roles.
      apply (compare_rows_sound this other location1 location2 Hoverlap Hs1 Hs2 Ht1 Ht2 i);
        [lia | exact Hrow].
    + intros (px & py & Ha & Hb)%overlapping_roles. exfalso.
      pose proof (overlap_row this other location1 location2 Hoverlap Hs1 Hs2 px py Ha Hb)
        as Hi.
      apply (compare_rows_complete this other location1 location2 Hoverlap Hs1 Hs2
                                   px py Ha Hb Hcase).
      apply (for_until_false _ _ _ Hrun). lia.
  - injection Hrun as <-. split; [discriminate|].
    intros Hover%overlapping_bounding_boxes. congruence.
Qed.

(** On bitmaps as the constructor builds them, the two ways of calling the
    collision test never give two different booleans. *)
Theorem check_collision_symmetric_defined
    (this other : PixelBits) (location1 location2 : SDL_Rect) (r1 r2 : bool) :
  well_formed this -> well_formed other -> tidy this -> tidy other ->
  check_collision this other location1 location2 = Done r1 ->
  check_collision other this location2 location1 = Done r2 ->
  r1 = r2.
Proof.
  intros Hs1 Hs2 Ht1 Ht2 Hrun1 Hrun2.
  destruct (Z.eq_dec (x location1) (x location2)) as [Hx|Hx].
  - apply check_collision_decides in Hrun1; try assumption.
    2:{ simpl. right. apply same_x_aligned. exact Hx. }
    apply check_collision_decides in Hrun2; try assumption.
    2:{ simpl. right. apply same_x_aligned. simpl. congruence. }
    assert (Hiff : r1 = true <-> r2 = true).
    { rewrite Hrun1, Hrun2. split; apply overlapping_comm. }
    destruct r1, r2; try reflexivity; destruct Hiff as [H12 H21];
      [symmetry; apply H12 | apply H21]; reflexivity.
  - unfold check_collision in Hrun1, Hrun2.
    rewrite (check_rectangle_collision_comm (bounding_box other location2)) in Hrun2.
    rewrite (assign_rows_swap this other) in Hrun2 by exact Hx.
    rewrite Hrun1 in Hrun2. injection Hrun2 as <-. reflexivity.
Qed.

(** ** Moving both bitmaps *)

(** A location moved by [(dx, dy)]. *)
Definition translate (location : SDL_Rect) (dx dy : Z) : SDL_Rect :=
  {| x := x location + dx; y := y location + dy; w := w location; h := h location |}.

(** Two states of the local variables that make the loops do the same. *)
Definition same_rows (l l' : locals) : Prop :=
  h (intersection l) = h (intersection l') /\
  rows_a l = rows_a l' /\ rows_b l = rows_b l' /\
  nb_masks_per_row_a l = nb_masks_per_row_a l' /\
  has_row_b_additional_mask l = has_row_b_additional_mask l' /\
  nb_unused_masks_row_b l = nb_unused_masks_row_b l' /\
  nb_unused_bits_row_b l = nb_unused_bits_row_b l' /\
  nb_used_bits_row_b l = nb_used_bits_row_b l'.

Lemma same_rows_compare (l l' : locals) :
  same_rows l l' ->
  for_until (Z.to_nat (h (intersection l))) 0 (compare_rows l) false
  = for_until (Z.to_nat (h (intersection l'))) 0 (compare_rows l') false.
Proof.
  destruct l, l'. unfold same_rows. simpl.
  intros (-> & -> & -> & -> & -> & -> & -> & ->). reflexivity.
Qed.

Lemma MAX_shift (u v d : Z) : MAX (u + d) (v + d) = MAX u v + d.
Proof.
  unfold MAX. destruct (Z.gtb_spec (u + d) (v + d)); destruct (Z.gtb_spec u v); lia.
Qed.

Lemma MIN_shift (u v d s t : Z) : MIN (u + d + s) (v + d + t) = MIN (u + s) (v + t) + d.
Proof.
  unfold MIN.
  destruct (Z.ltb_spec (u + d + s) (v + d + t)); destruct (Z.ltb_spec (u + s) (v + t)); lia.
Qed.

Lemma gtb_shift (u v d : Z) : (u + d >? v + d) = (u >? v).
Proof. destruct (Z.gtb_spec (u + d) (v + d)); destruct (Z.gtb_spec u v); lia. Qed.

Lemma assign_rows_translate (this other : PixelBits) (location1 location2 : SDL_Rect)
    (dx dy : Z) :
  same_rows
    (assign_rows this other (bounding_box this (translate location1 dx dy))
                 (bounding_box other (translate location2 dx dy)))
    (assign_rows this other (bounding_box this location1) (bounding_box other location2)).
Proof.
  unfold assign_rows, translate. simpl.
  rewrite !MAX_shift, !MIN_shift, gtb_shift.
  replace (MIN (x location1 + width this) (x location2 + width other) + dx
           - (MAX (x location1) (x location2) + dx))
    with (MIN (x location1 + width this) (x location2 + width other)
          - MAX (x location1) (x location2)) by lia.
  replace (MAX (x location1) (x location2) + dx - (x location1 + dx))
    with (MAX (x location1) (x location2) - x location1) by lia.
  replace (MAX (x location1) (x location2) + dx - (x location2 + dx))
    with (MAX (x location1) (x location2) - x location2) by lia.
  replace (MAX (y location1) (y location2) + dy - (y location1 + dy))
    with (MAX (y location1) (y location2) - y location1) by lia.
  replace (MAX (y location1) (y location2) + dy - (y location2 + dy))
    with (MAX (y location1) (y location2) - y location2) by lia.
  unfold same_rows.
  destruct (x location1 >? x location2); simpl; repeat split; lia.
Qed.

(** The collision test depends on the two locations only through their
    difference: moving both bitmaps by the same vector changes nothing. *)
Theorem check_collision_translate (this other : PixelBits) (location1 location2 : SDL_Rect)
    (dx dy : Z) :
  check_collision this other (translate location1 dx dy) (translate location2 dx dy)
  = check_collision this other location1 location2.
Proof.
  unfold check_collision.
  assert (Hbox : check_rectangle_collision
                   (bounding_box this (translate location1 dx dy))
                   (bounding_box other (translate location2 dx dy))
                 = check_rectangle_collision (bounding_box this location1)
                                             (bounding_box other location2)).
  { unfold check_rectangle_collision. simpl.
    destruct (Z.ltb_spec (x location2 + dx) (x location1 + dx + width this));
      destruct (Z.ltb_spec (x location2) (x location1 + width this)); try lia;
      destruct (Z.ltb_spec (x location1 + dx) (x location2 + dx + width other));
      destruct (Z.ltb_spec (x location1) (x location2 + width other)); try lia;
      destruct (Z.ltb_spec (y location2 + dy) (y location1 + dy + height this));
      destruct (Z.ltb_spec (y location2) (y location1 + height this)); try lia;
      destruct (Z.ltb_spec (y location1 + dy) (y location2 + dy + height other));
      destruct (Z.ltb_spec (y location1) (y location2 + height other)); try lia;
      reflexivity. }
  rewrite Hbox.
  destruct (check_rectangle_collision (bounding_box this location1)
                                      (bounding_box other location2)); simpl;
    [|reflexivity].
  apply same_rows_compare, assign_rows_translate.
Qed.

(** ** The rectangle test and the points of the plane *)

(** The point [(px, py)] is in a rectangle, its right and bottom edges
    excluded. *)
Definition in_rectangle (rectangle : SDL_Rect) (px py : Z) : Prop :=
  x rectangle <= px < x rectangle + w rectangle /\
  y rectangle <= py < y rectangle + h rectangle.

(** Two rectangles of positive width and height overlap for the rectangle
    test exactly when they have a point in common; for any sizes, two
    rectangles with a common point overlap for the test. *)
Theorem check_rectangle_collision_common_point (rectangle1 rectangle2 : SDL_Rect) :
  ((exists px py, in_rectangle rectangle1 px py /\ in_rectangle rectangle2 px py) ->
   check_rectangle_collision rectangle1 rectangle2 = true) /\
  (0 < w rectangle1 -> 0 < h rectangle1 -> 0 < w rectangle2 -> 0 < h rectangle2 ->
   check_rectangle_collision rectangle1 rectangle2 = true ->
   exists px py, in_rectangle rectangle1 px py /\ in_rectangle rectangle2 px py).
Proof.
  unfold in_rectangle. split.
  - intros (px & py & H1 & H2). apply check_rectangle_collision_true. lia.
  - intros Hw1 Hh1 Hw2 Hh2 Hc. apply check_rectangle_collision_true in Hc.
    exists (Z.max (x rectangle1) (x rectangle2)), (Z.max (y rectangle1) (y rectangle2)).
    lia.
Qed.

(** ** Where the collision test is exact *)

(** On bitmaps as the constructor builds them, with overlapping bounding
    boxes: when the rows are not aligned and the additional mask of row b is
    read, or when they are aligned and it is not, the collision test returns
    a boolean, and it is [true] exactly when some point of the map is covered
    by an opaque pixel of each bitmap. *)
Theorem check_collision_exact (this other : PixelBits) (location1 location2 : SDL_Rect) :
  well_formed this -> well_formed other -> tidy this -> tidy other ->
  check_rectangle_collision (bounding_box this location1) (bounding_box other location2)
  = true ->
  let l := assign_rows this other
             (bounding_box this location1) (bounding_box other location2) in
  (has_row_b_additional_mask l = true /\ nb_unused_bits_row_b l <> 0) \/
  (has_row_b_additional_mask l = false /\ nb_unused_bits_row_b l = 0) ->
  exists r,
    check_collision this other location1 location2 = Done r /\
    (r = true <-> overlapping this location1 other location2).
Proof.
  intros Hs1 Hs2 Ht1 Ht2 Hoverlap l Hcase.
  assert (Hdefined : exists r, check_collision this other location1 location2 = Done r).
  { unfold check_collision. rewrite Hoverlap. simpl. fold l.
    apply for_until_Done. intros i Hi.
    apply compare_rows_defined; try assumption; fold l; [lia|].
    destruct Hcase as [(_ & H)|(H & _)]; auto. }
  destruct Hdefined as (r & Hr). exists r. split; [exact Hr|].
  apply (check_collision_decides this other location1 location2 r); try assumption.
  simpl. fold l. destruct Hcase as [(H & _)|(_ & H)]; auto.
Qed.

(** ** The further properties of the class at concrete inputs *)

Lemma narrow_tidy : tidy narrow.
Proof.
  destruct examples_constructed as (Hn & _).
  eapply PixelBits_new_tidy; [| | exact Hn]; simpl; lia.
Qed.

Lemma PixelBits_new_shape_witness : well_formed long /\ tidy long.
Proof.
  apply (PixelBits_new_shape stale (strip long_pixels) (whole_strip long_pixels) long).
  - simpl. lia.
  - simpl. lia.
  - vm_compute. reflexivity.
Defined.

Lemma PixelBits_new_completes_iff_witness :
  (exists p, PixelBits_new stale (strip dot_pixels) (whole_strip dot_pixels) = Done p) <->
  image_in_surface (strip dot_pixels) (whole_strip dot_pixels).
Proof.
  apply (PixelBits_new_completes_iff stale (strip dot_pixels) (whole_strip dot_pixels)).
  - reflexivity.
  - simpl. lia.
Defined.

Lemma PixelBits_new_ignores_uninitialized_witness :
  PixelBits_new (fun i k => i + k) (strip wide_pixels) (whole_strip wide_pixels)
  = Done wide.
Proof.
  apply (PixelBits_new_ignores_uninitialized stale (fun i k => i + k)
           (strip wide_pixels) (whole_strip wide_pixels) wide).
  - simpl. lia.
  - vm_compute. reflexivity.
Defined.

(** The single opaque pixel of [dot], cut out of the middle of a surface of
    three columns and two rows whose colour key is 256, that is 0 as a
    [Uint8]. *)
Definition sheet : SDL_Surface :=
  {| format := {| BitsPerPixel := 8; colorkey := 256 |};
     surface_w := 3;
     pixels := [0; 0; 0; 0; 1; 0] |}.

Lemma PixelBits_new_depends_on_image_witness :
  PixelBits_new (fun i k => i + k) sheet {| x := 1; y := 1; w := 1; h := 1 |} = Done dot.
Proof.
  apply (PixelBits_new_depends_on_image stale (fun i k => i + k)
           (strip dot_pixels) sheet (whole_strip dot_pixels)
           {| x := 1; y := 1; w := 1; h := 1 |} dot).
  - simpl. lia.
  - reflexivity.
  - reflexivity.
  - reflexivity.
  - reflexivity.
  - intros row col Hrow Hcol. simpl in Hrow, Hcol.
    assert (row = 0) as -> by lia. assert (col = 0) as -> by lia. reflexivity.
  - vm_compute. reflexivity.
Defined.

Lemma check_collision_defined_iff_witness :
  check_collision long dot (at_position 0 0) (at_position 0 0) = Abort UndefinedShift /\
  exists r, check_collision narrow wide (at_position 31 0) (at_position 0 0) = Done r.
Proof.
  split.
  - apply (check_collision_defined_iff long dot (at_position 0 0) (at_position 0 0)).
    + apply examples_well_formed.
    + apply examples_well_formed.
    + reflexivity.
    + split; reflexivity.
  - apply (check_collision_defined_iff narrow wide (at_position 31 0) (at_position 0 0)).
    + apply examples_well_formed.
    + apply examples_well_formed.
    + reflexivity.
    + left. reflexivity.
Defined.

Lemma check_collision_symmetric_defined_witness :
  check_collision dot long (at_position 32 0) (at_position 0 0) = Done true /\
  check_collision long dot (at_position 0 0) (at_position 32 0) = Done true /\
  true = true.
Proof.
  split; [vm_compute; reflexivity|]. split; [vm_compute; reflexivity|].
  apply (check_collision_symmetric_defined dot long (at_position 32 0) (at_position 0 0)).
  - apply examples_well_formed.
  - apply examples_well_formed.
  - apply examples_tidy.
  - apply examples_tidy.
  - vm_compute. reflexivity.
  - vm_compute. reflexivity.
Defined.

Lemma check_rectangle_collision_common_point_witness :
  exists px py,
    in_rectangle {| x := 0; y := 0; w := 40; h := 2 |} px py /\
    in_rectangle {| x := 35; y := 0; w := 40; h := 2 |} px py.
Proof.
  apply (check_rectangle_collision_common_point
           {| x := 0; y := 0; w := 40; h := 2 |} {| x := 35; y := 0; w := 40; h := 2 |});
    simpl; try lia; reflexivity.
Defined.

(** [narrow] at [(31, 0)] against the longer bitmap [long] at [(0, 0)]: row b
    now has three masks, the additional mask is read, and the collision on
    the point [(32, 0)] of the map is found. *)
Lemma check_collision_exact_witness :
  exists r,
    check_collision narrow long (at_position 31 0) (at_position 0 0) = Done r /\
    (r = true <-> overlapping narrow (at_position 31 0) long (at_position 0 0)).
Proof.
  apply (check_collision_exact narrow long (at_position 31 0) (at_position 0 0)).
  - apply examples_well_formed.
  - apply examples_well_formed.
  - apply narrow_tidy.
  - apply examples_tidy.
  - reflexivity.
  - left. split; [reflexivity|]. vm_compute. discriminate.
Defined.

(** * Transportable items (src/entities/TransportableItem.cpp)

    A pot, a skull, a bush or a stone that the hero lifts, and, for a bush,
    cuts with the sword.  The handlers of the class talk to objects declared
    elsewhere (the hero, the effect of the action key, the equipment, the
    sprite, the entities of the map): what a handler asks them is an
    argument of its embedding, and what it tells them is the list of calls
    that it returns with the new state of the item. *)

Module TransportableItem.

Record ItemProperties : Type :=
  { animation_set_id : string; breaking_sound_id : string; weight : Z }.

(** The table [properties], indexed by the type of item. *)
Definition properties : list ItemProperties :=
  [ {| animation_set_id := "entities/pot"; breaking_sound_id := "stone"; weight := 0 |};
    {| animation_set_id := "entities/skull"; breaking_sound_id := "stone"; weight := 0 |};
    {| animation_set_id := "entities/bush"; breaking_sound_id := "bush"; weight := 0 |};
    {| animation_set_id := "entities/stone_small_white"; breaking_sound_id := "stone";
       weight := 1 |};
    {| animation_set_id := "entities/stone_small_white"; breaking_sound_id := "stone";
       weight := 2 |} ].

(** The fields of the item that the handlers use; [get_layer], [get_x] and
    [get_y] are what the methods of these names return. *)
Record t : Type :=
  { type : Z;
    pickable_item : Z;
    pickable_item_savegame_variable : Z;
    is_breaking : bool;
    position_in_map : SDL_Rect;
    get_layer : Z;
    get_x : Z;
    get_y : Z }.

(** The calls that the handlers make on other objects. *)
Inductive call : Type :=
| set_action_key_effect (effect : Z)
| play (sound_id : string)
| set_current_animation (animation : string)
| set_obstacle (obstacle : Z)
| add_pickable_item (layer px py item savegame_variable falling : Z) (will_disappear : bool)
| start_lifting
| remove_transportable_item
| MapEntity_update.

(** A handler returns, or stops the program through [DIE] with a message and
    the value streamed after it, or indexes [properties] outside of the table. *)
Inductive result (A : Type) : Type :=
| Returns (a : A)
| Dies (message : string) (value : Z)
| NoSuchType.

Arguments Returns {A} a.
Arguments Dies {A} message value.
Arguments NoSuchType {A}.

(** [properties[type]] *)
Definition properties_of (this : t) : result ItemProperties :=
  match read properties (type this) with
  | Done p => Returns p
  | Abort _ => NoSuchType
  end.

Definition get_animation_set_id (this : t) : result string :=
  match properties_of this with
  | Returns p => Returns (animation_set_id p)
  | Dies m v => Dies m v
  | NoSuchType => NoSuchType
  end.

(** What the collision with an entity learns from the entity, the effect of
    the action key, the hero and the equipment. *)
Record entity_overlap : Type :=
  { entity_is_hero : bool;
    action_key_effect : Z;
    link_state : Z;
    can_lift : Z -> bool }.

(** What the collision with a sprite learns from the entity and the sprite. *)
Record sprite_overlap : Type :=
  { is_hero : bool;
    sprite_animation_set_id : string;
    state : Z;
    animation_direction : Z;
    movement_direction : Z;
    facing_point : SDL_Rect }.

(** [s.find(pattern) != string::npos] *)
Definition found (pattern s : string) : bool :=
  match String.index 0 pattern s with
  | Some _ => true
  | None => false
  end.

Section Handlers.

(** Constants of enumerations declared elsewhere: [Link::FREE],
    [Link::SWORD_SWINGING], [Link::SPIN_ATTACK], [KeysEffect::ACTION_KEY_NONE],
    [KeysEffect::ACTION_KEY_LIFT], [PickableItem::NONE],
    [PickableItem::ARROW_10], [OBSTACLE_NONE] and [MovementFalling::MEDIUM]. *)
Variables (FREE SWORD_SWINGING SPIN_ATTACK : Z).
Variables (ACTION_KEY_NONE ACTION_KEY_LIFT : Z).
Variables (NONE ARROW_10 : Z).
Variables (OBSTACLE_NONE MEDIUM : Z).

(** The creation of the pickable item, as both the sword and the action key
    do it. *)
Definition create_pickable_item (this : t) : list call :=
  if negb (pickable_item this =? NONE) then
    let will_disappear := pickable_item this <=? ARROW_10 in
    [add_pickable_item (get_layer this) (get_x this) (get_y this) (pickable_item this)
       (pickable_item_savegame_variable this) MEDIUM will_disappear]
  else [].

(** [collision(MapEntity *entity_overlapping)] *)
Definition collision (this : t) (o : entity_overlap) : result (t * list call) :=
  if entity_is_hero o then
    match properties_of this with
    | Returns p =>
        let weight := weight p in
        if (action_key_effect o =? ACTION_KEY_NONE)
           && (link_state o =? FREE)
           && can_lift o weight
           && negb (is_breaking this)
        then Returns (this, [set_action_key_effect ACTION_KEY_LIFT])
        else Returns (this, [])
    | Dies m v => Dies m v
    | NoSuchType => NoSuchType
    end
  else Returns (this, []).

(** The switch on the direction of the hero's animation. *)
Definition sword_reaches (this : t) (o : sprite_overlap) : result bool :=
  let facing_point := facing_point o in
  let position_in_map := position_in_map this in
  match animation_direction o with
  | 0 =>
      Returns ((y facing_point >=? y position_in_map)
               && (y facing_point <? y position_in_map + h position_in_map)
               && (x facing_point >=? x position_in_map - 14))
  | 1 =>
      Returns ((x facing_point >=? x position_in_map)
               && (x facing_point <? x position_in_map + w position_in_map)
               && (y facing_point <? y position_in_map + h position_in_map + 14))
  | 2 =>
      Returns ((y facing_point >=? y position_in_map)
               && (y facing_point <? y position_in_map + h position_in_map)
               && (x facing_point <? x position_in_map + w position_in_map + 14))
  | 3 =>
      Returns ((x facing_point >=? x position_in_map)
               && (x facing_point <? x position_in_map + w position_in_map)
               && (y facing_point >=? y position_in_map - 14))
  | _ => Dies "Invalid animation direction of Link: " (animation_direction o)
  end.

(** [collision(MapEntity *entity, Sprite *sprite_overlapping)] *)
Definition collision_with_sprite (this : t) (o : sprite_overlap)
  : result (t * list call) :=
  if negb (is_breaking this) && is_hero o && found "sword" (sprite_animation_set_id o)
  then
    let break_bush :=
      if state o =? SPIN_ATTACK then Returns true
      else if (state o =? SWORD_SWINGING)
              || (movement_direction o =? animation_direction o * 90)
           then sword_reaches this o
           else Returns false in
    match break_bush with
    | Returns true =>
        match properties_of this with
        | Returns p =>
            Returns
              ({| type := type this;
                  pickable_item := pickable_item this;
                  pickable_item_savegame_variable := pickable_item_savegame_variable this;
                  is_breaking := true;
                  position_in_map := position_in_map this;
                  get_layer := get_layer this;
                  get_x := get_x this;
                  get_y := get_y this |},
               [play (breaking_sound_id p); set_current_animation "destroy";
                set_obstacle OBSTACLE_NONE] ++ create_pickable_item this)
        | Dies m v => Dies m v
        | NoSuchType => NoSuchType
        end
    | Returns false => Returns (this, [])
    | Dies m v => Dies m v
    | NoSuchType => NoSuchType
    end
  else Returns (this, []).

(** [action_key_pressed()], given the effect of the action key. *)
Definition action_key_pressed (this : t) (effect : Z) : result (t * list call) :=
  if (effect =? ACTION_KEY_LIFT) && negb (is_breaking this) then
    Returns (this,
             [start_lifting; play "lift"] ++ create_pickable_item this
             ++ [remove_transportable_item])
  else Returns (this, []).

(** [update()], given whether the animation of the last sprite is over. *)
Definition update (this : t) (last_sprite_is_over : bool) : result (t * list call) :=
  if is_breaking this && last_sprite_is_over
  then Returns (this, [MapEntity_update; remove_transportable_item])
  else Returns (this, [MapEntity_update]).

(** ** Sequences of events on one item *)

(** An event that the engine sends to the item, with what the handler learns
    from the other objects. *)
Inductive request : Type :=
| entity_overlaps (o : entity_overlap)
| sprite_overlaps (o : sprite_overlap)
| action_key (effect : Z)
| tick (last_sprite_is_over : bool).

Definition handle (this : t) (r : request) : result (t * list call) :=
  match r with
  | entity_overlaps o => collision this o
  | sprite_overlaps o => collision_with_sprite this o
  | action_key effect => action_key_pressed this effect
  | tick over => update this over
  end.

(** The handlers called one after the other, each on the state that the
    previous one left. *)
Fixpoint run (this : t) (requests : list request) : result (t * list call) :=
  match requests with
  | [] => Returns (this, [])
  | r :: rest =>
      match handle this r with
      | Returns (this', calls) =>
          match run this' rest with
          | Returns (this'', calls') => Returns (this'', calls ++ calls')
          | Dies m v => Dies m v
          | NoSuchType => NoSuchType
          end
      | Dies m v => Dies m v
      | NoSuchType => NoSuchType
      end
  end.

(** The item once cut. *)
Definition broken (this : t) : t :=
  {| type := type this;
     pickable_item := pickable_item this;
     pickable_item_savegame_variable := pickable_item_savegame_variable this;
     is_breaking := true;
     position_in_map := position_in_map this;
     get_layer := get_layer this;
     get_x := get_x this;
     get_y := get_y this |}.

(** The number of times the calls start the animation of destruction. *)
Fixpoint cuts (calls : list call) : nat :=
  match calls with
  | [] => O
  | set_current_animation _ :: rest => S (cuts rest)
  | _ :: rest => cuts rest
  end.

(** A call that a breaking item still makes. *)
Definition idle (c : call) : Prop := c = MapEntity_update \/ c = remove_transportable_item.

(** A pickable item is created where the item is, with the type and the
    savegame variable of the item. *)
Definition creates_own_pickable_item (this : t) (c : call) : Prop :=
  match c with
  | add_pickable_item layer px py item savegame_variable falling will_disappear =>
      pickable_item this <> NONE /\
      layer = get_layer this /\ px = get_x this /\ py = get_y this /\
      item = pickable_item this /\
      savegame_variable = pickable_item_savegame_variable this /\
      falling = MEDIUM /\
      will_disappear = (pickable_item this <=? ARROW_10)
  | _ => True
  end.

Lemma cuts_app (calls calls' : list call) :
  cuts (calls ++ calls') = (cuts calls + cuts calls')%nat.
Proof.
  induction calls as [|c calls IH]; simpl; [reflexivity|].
  destruct c; simpl; rewrite IH; reflexivity.
Qed.

Lemma create_pickable_item_spec (this : t) :
  cuts (create_pickable_item this) = O /\
  Forall (creates_own_pickable_item this) (create_pickable_item this).
Proof.
  unfold create_pickable_item.
  destruct (Z.eqb_spec (pickable_item this) NONE); simpl; split; auto.
  constructor; [|constructor]. simpl. auto 10.
Qed.

Lemma properties_of_in_table (this : t) :
  0 <= type this < 5 -> exists p, properties_of this = Returns p.
Proof.
  intros Htype. unfold properties_of.
  destruct (read_in_bounds properties (type this)) as (p & Hp); [simpl; lia|].
  rewrite Hp. eauto.
Qed.

(** What one handler does to the item and how many cuts it makes. *)
Lemma handle_Returns (this this' : t) (r : request) (calls : list call) :
  handle this r = Returns (this', calls) ->
  Forall (creates_own_pickable_item this) calls /\
  ((this' = this /\ cuts calls = O /\ (is_breaking this = true -> Forall idle calls)) \/
   (is_breaking this = false /\ this' = broken this /\ cuts calls = 1%nat)).
Proof.
  destruct r as [o|o|effect|over]; simpl.
  - unfold collision. destruct (entity_is_hero o).
    + destruct (properties_of this) as [p| |]; try discriminate.
      destruct (is_breaking this) eqn:Hb; rewrite ?andb_false_r; simpl.
      * intros [= <- <-]. split; [constructor|]. left. auto.
      * destruct ((action_key_effect o =? ACTION_KEY_NONE) && (link_state o =? FREE)
                  && can_lift o (weight p) && true);
          intros [= <- <-]; (split; [repeat constructor|]); left;
          repeat split; try reflexivity; discriminate.
    + intros [= <- <-]. split; [constructor|]. left. auto.
  - unfold collision_with_sprite. destruct (is_breaking this) eqn:Hb; simpl.
    + intros [= <- <-]. split; [constructor|]. left. auto.
    + destruct (is_hero o && found "sword" (sprite_animation_set_id o)).
      2:{ intros [= <- <-]. split; [constructor|]. left.
          repeat split; try reflexivity; discriminate. }
      destruct (if state o =? SPIN_ATTACK then Returns true
                else if (state o =? SWORD_SWINGING)
                        || (movement_direction o =? animation_direction o * 90)
                     then sword_reaches this o else Returns false)
        as [[|]| |]; try discriminate.
      * destruct (properties_of this) as [p| |]; try discriminate.
        intros [= <- <-]. destruct (create_pickable_item_spec this) as (Hcuts & Hown).
        split.
        { repeat (constructor; [exact I|]). exact Hown. }
        right. split; [reflexivity|]. split; [reflexivity|].
        simpl. rewrite Hcuts. reflexivity.
      * intros [= <- <-]. split; [constructor|]. left.
        repeat split; try reflexivity; discriminate.
  - unfold action_key_pressed. destruct (is_breaking this) eqn:Hb;
      rewrite ?andb_false_r; simpl.
    + intros [= <- <-]. split; [constructor|]. left. auto.
    + destruct (effect =? ACTION_KEY_LIFT); simpl; intros [= <- <-].
      * destruct (create_pickable_item_spec this) as (Hcuts & Hown).
        split.
        { repeat (constructor; [exact I|]). apply Forall_app. split; [exact Hown|].
          repeat constructor. }
        left. split; [reflexivity|]. split; [|discriminate].
        simpl. rewrite cuts_app, Hcuts. reflexivity.
      * split; [constructor|]. left. repeat split; try reflexivity; discriminate.
  - unfold update. destruct (is_breaking this && over); intros [= <- <-];
      (split; [repeat constructor|]); left;
      (split; [reflexivity|]); (split; [reflexivity|]);
      intros _; repeat (apply Forall_cons_2; [unfold idle; auto|]); apply Forall_nil_2.
Qed.

Lemma creates_own_pickable_item_broken (this : t) (c : call) :
  creates_own_pickable_item (broken this) c -> creates_own_pickable_item this c.
Proof. destruct c; simpl; auto. Qed.


(** A breaking item is inert: whatever events follow, the handlers leave it
    as it is, and all they do is update the entity and remove the item from
    the map; in particular they neither cut it again, nor lift it, nor create
    a pickable item. *)
Theorem breaking_item_inert (this : t) (requests : list request) :
  is_breaking this = true -> 0 <= type this < 5 ->
  exists calls, run this requests = Returns (this, calls) /\ Forall idle calls.
Proof.
  intros Hb Htype. induction requests as [|r rest IH]; simpl.
  - exists []. split; [reflexivity | constructor].
  - destruct IH as (calls' & Hrest & Hidle').
    assert (Hr : exists calls, handle this r = Returns (this, calls)).
    { destruct (properties_of_in_table this Htype) as (p & Hp).
      destruct r as [o|o|effect|over]; simpl.
      - unfold collision. rewrite Hp, Hb, andb_false_r.
        destruct (entity_is_hero o); eauto.
      - unfold collision_with_sprite. rewrite Hb. simpl. eauto.
      - unfold action_key_pressed. rewrite Hb, andb_false_r. eauto.
      - unfold update. destruct (is_breaking this && over); eauto. }
    destruct Hr as (calls & Hr). rewrite Hr, Hrest.
    exists (calls ++ calls'). split; [reflexivity|].
    apply handle_Returns in Hr as (_ & [(_ & _ & Hidle)|(Hb' & _)]).
    + apply Forall_app. split; [apply Hidle; exact Hb | exact Hidle'].
    + congruence.
Qed.

(** Every pickable item that the handlers create, by the sword or by the
    action key, is created at the place of the item, with its type, its
    savegame variable, the falling height [MEDIUM] and [will_disappear] set
    exactly for the types up to [ARROW_10]; none is created for [NONE]. *)
Theorem run_creates_own_pickable_item
    (this this' : t) (requests : list request) (calls : list call) :
  run this requests = Returns (this', calls) ->
  Forall (creates_own_pickable_item this) calls.
Proof.
  revert this this' calls.
  induction requests as [|r rest IH]; intros this this' calls Hrun; simpl in Hrun.
  - injection Hrun as <- <-. constructor.
  - destruct (handle this r) as [[this1 calls1]| |] eqn:Hr; try discriminate.
    destruct (run this1 rest) as [[this2 calls2]| |] eqn:Hrest; try discriminate.
    injection Hrun as <- <-. apply Forall_app.
    apply handle_Returns in Hr as (Hown & Hstate). split; [exact Hown|].
    apply IH in Hrest.
    destruct Hstate as [(-> & _)|(_ & -> & _)]; [exact Hrest|].
    eapply Forall_impl; [exact Hrest|]. apply creates_own_pickable_item_broken.
Qed.

(** ** The sword and the bush *)


Lemma sword_reaches_Dies (this : t) (o : sprite_overlap) (m : string) (v : Z) :
  sword_reaches this o = Dies m v <->
  ~ 0 <= animation_direction o <= 3 /\
  m = "Invalid animation direction of Link: "%string /\ v = animation_direction o.
Proof.
  unfold sword_reaches.
  destruct (animation_direction o) as [|[[q|q|]|[q|q|]|]|q];
    (split; [intros H; first [discriminate H
                             | injection H as <- <-; repeat split; lia]
            | intros (Hd & -> & ->); first [lia | reflexivity]]).
Qed.


(** The only fatal error of the handlers is the one of the collision with a
    sprite, on a direction of the hero's animation other than 0, 1, 2 and 3;
    it needs an item that is not breaking, the hero, a sprite of the sword,
    and a hero who swings the sword or walks in the direction he looks at
    without spinning. *)
Theorem handle_Dies (this : t) (r : request) (m : string) (v : Z) :
  handle this r = Dies m v <->
  exists o,
    r = sprite_overlaps o /\
    is_breaking this = false /\ is_hero o = true /\
    found "sword" (sprite_animation_set_id o) = true /\
    state o <> SPIN_ATTACK /\
    (state o = SWORD_SWINGING \/ movement_direction o = animation_direction o * 90) /\
    ~ 0 <= animation_direction o <= 3 /\
    m = "Invalid animation direction of Link: "%string /\ v = animation_direction o.
Proof.
  split.
  - destruct r as [o|o|effect|over]; simpl.
    + unfold collision. destruct (entity_is_hero o); [|discriminate].
      unfold properties_of. destruct (read properties (type this)); [|discriminate].
      destruct (_ && _); discriminate.
    + intros Hrun. exists o. split; [reflexivity|].
      unfold collision_with_sprite in Hrun.
      destruct (is_breaking this); [discriminate|].
      destruct (is_hero o); [|discriminate].
      destruct (found "sword" (sprite_animation_set_id o)); [|discriminate].
      simpl in Hrun.
      do 3 (split; [reflexivity|]).
      destruct (Z.eqb_spec (state o) SPIN_ATTACK) as [|Hspin].
      { unfold properties_of in Hrun.
        destruct (read properties (type this)); discriminate. }
      split; [exact Hspin|].
      destruct ((state o =? SWORD_SWINGING)
                || (movement_direction o =? animation_direction o * 90)) eqn:Hmove;
        [|discriminate].
      split.
      { apply orb_true_iff in Hmove as [H|H]; apply Z.eqb_eq in H; auto. }
      destruct (sword_reaches this o) as [[|]| |] eqn:Hreach; try discriminate.
      * unfold properties_of in Hrun.
        destruct (read properties (type this)); discriminate.
      * injection Hrun as <- <-. apply sword_reaches_Dies in Hreach. exact Hreach.
    + unfold action_key_pressed. destruct (_ && _); discriminate.
    + unfold update. destruct (_ && _); discriminate.
  - intros (o & -> & Hb & Hhero & Hsword & Hspin & Hmove & Hd & -> & ->). simpl.
    unfold collision_with_sprite. rewrite Hb, Hhero, Hsword. simpl.
    destruct (Z.eqb_spec (state o) SPIN_ATTACK); [contradiction|].
    assert (Hm : (state o =? SWORD_SWINGING)
                 || (movement_direction o =? animation_direction o * 90) = true).
    { destruct Hmove as [-> | ->]; rewrite Z.eqb_refl, ?orb_true_r; reflexivity. }
    rewrite Hm.
    rewrite (proj2 (sword_reaches_Dies this o _ _) (conj Hd (conj eq_refl eq_refl))).
    reflexivity.
Qed.

End Handlers.

(** ** A bush under the sword *)

(** A bush that hides a pickable item of type 3, and the hero swinging the
    sword towards the right with the facing point on the bush; the constants
    of the enumerations are given the values 0, 1, 2 ([FREE],
    [SWORD_SWINGING], [SPIN_ATTACK]), 0, 1 (the effects of the action key),
    0, 5 ([NONE], [ARROW_10]), 0 and 1 ([OBSTACLE_NONE], [MEDIUM]). *)
Definition bush : t :=
  {| type := 2; pickable_item := 3; pickable_item_savegame_variable := -1;
     is_breaking := false;
     position_in_map := {| x := 100; y := 100; w := 16; h := 16 |};
     get_layer := 0; get_x := 108; get_y := 113 |}.

Definition swing : sprite_overlap :=
  {| is_hero := true; sprite_animation_set_id := "link/sword";
     state := 1; animation_direction := 0; movement_direction := 0;
     facing_point := {| x := 101; y := 105; w := 1; h := 1 |} |}.

Definition swings_and_more : list request :=
  [sprite_overlaps swing; sprite_overlaps swing; action_key 1; tick true].

Definition bush_calls : list call :=
  [play "bush"; set_current_animation "destroy"; set_obstacle 0;
   add_pickable_item 0 108 113 3 (-1) 1 true;
   MapEntity_update; remove_transportable_item].


Lemma breaking_item_inert_witness :
  exists calls,
    run 0 1 2 0 1 0 5 0 1 (broken bush) swings_and_more = Returns (broken bush, calls) /\
    Forall idle calls.
Proof.
  apply (breaking_item_inert 0 1 2 0 1 0 5 0 1 (broken bush) swings_and_more).
  - reflexivity.
  - simpl. lia.
Defined.

Lemma run_creates_own_pickable_item_witness :
  Forall (creates_own_pickable_item 0 5 1 bush) bush_calls.
Proof.
  apply (run_creates_own_pickable_item 0 1 2 0 1 0 5 0 1
           bush (broken bush) swings_and_more bush_calls).
  vm_compute. reflexivity.
Defined.


Lemma handle_Dies_witness :
  handle 0 1 2 0 1 0 5 0 1 bush
    (sprite_overlaps
       {| is_hero := true; sprite_animation_set_id := "link/sword";
          state := 1; animation_direction := 4; movement_direction := 0;
          facing_point := {| x := 101; y := 105; w := 1; h := 1 |} |})
  = Dies "Invalid animation direction of Link: " 4.
Proof.
  apply (handle_Dies 0 1 2 0 1 0 5 0 1). eexists. split; [reflexivity|].
  simpl. repeat split; try reflexivity; try (left; reflexivity); lia.
Defined.

End TransportableItem.
